(** * async_rediscache.types.cache: the typed Redis hash cache

    A shallow embedding of [RedisCache] (src/async_rediscache/types/cache.py)
    and the properties of its dictionary-like operations.

    Part I, the definitions:
    - Python scalars, exceptions and arithmetic ([RedisValueType], [py_add]);
    - the type codec, an interface ([TypeCodec]) with its contract
      ([TypeCodecLaws]) and one tagged-string instance ([TaggedCodec]);
    - the store: Redis hashes per namespace, the namespace locks and the
      Python dictionaries handed out to callers ([world]);
    - coroutines as command trees ([prog]) with a sequential interpreter
      ([run]) and an interleaving semantics ([sched_step]);
    - the methods of [RedisCache] (module [Cache]);
    - what the properties speak of ([field], [decoded], [written], ...).

    Part II, the properties: the interpreter, the methods one by one, then
    [set]/[get]/[delete]/[pop], [increment]/[decrement], [update]/[items],
    two increments scheduled together, and all of them on the tagged codec. *)

From Stdlib Require Import ZArith String Ascii Decimal DecimalString DecimalPos DecimalZ.
From Stdlib Require Import Floats.SpecFloat.
From stdpp Require Import base option list gmap strings fin_maps relations.

Open Scope Z_scope.

(** * Part I: definitions *)

(** ** Python scalars *)

(** A Python [float] is an IEEE 754 binary64 number. *)
Definition prec : Z := 53.
Definition emax : Z := 1024.
Abbreviation float := spec_float.

(** [RedisKeyType = Union[str, int]]. *)
Inductive RedisKeyType : Type :=
| KStr (s : string)
| KInt (z : Z).

(** [RedisValueType = Union[str, int, float, bool]]. *)
Inductive RedisValueType : Type :=
| VStr (s : string)
| VInt (z : Z)
| VFloat (f : float)
| VBool (b : bool).

#[global] Instance float_eq_dec : EqDecision float.
Proof. solve_decision. Defined.
#[global] Instance RedisKeyType_eq_dec : EqDecision RedisKeyType.
Proof. solve_decision. Defined.
#[global] Instance RedisValueType_eq_dec : EqDecision RedisValueType.
Proof. solve_decision. Defined.

Definition key_to_sum (k : RedisKeyType) : string + Z :=
  match k with KStr s => inl s | KInt z => inr z end.
Definition key_of_sum (x : string + Z) : RedisKeyType :=
  match x with inl s => KStr s | inr z => KInt z end.

#[global] Instance RedisKeyType_countable : Countable RedisKeyType.
Proof. apply (inj_countable' key_to_sum key_of_sum). by intros []. Defined.

(** The exceptions the cache can surface.  The spec calls [KeyError]
    MissingKeyError and [TypeError] UnsupportedTypeError; [OverflowError] is
    what Python raises when an [int] too large for a [float] meets one in an
    addition; [CorruptDataError] is the codec's failure on an untagged string;
    [ValueError] is what the connection's [hmset_dict] raises when it is
    given an empty dictionary. *)
Inductive exn : Type :=
| KeyError
| TypeError
| OverflowError
| CorruptDataError
| ValueError.

Inductive result (A : Type) : Type :=
| Ok (a : A)
| Raise (e : exn).
Arguments Ok {A} a.
Arguments Raise {A} e.

#[global] Instance exn_eq_dec : EqDecision exn.
Proof. solve_decision. Defined.

(** [float(z)] for a Python [int]: correctly rounded (ties to even); an
    integer that rounds beyond the largest finite float raises. *)
Definition float_of_int (z : Z) : result float :=
  match binary_normalize prec emax z 0 false with
  | S754_infinity _ => Raise OverflowError
  | f => Ok f
  end.

(** [isinstance(value, int)]: [bool] is a subclass of [int]. *)
Definition isinstance_int (value : RedisValueType) : bool :=
  match value with
  | VInt _ | VBool _ => true
  | VStr _ | VFloat _ => false
  end.

Definition isinstance_float (value : RedisValueType) : bool :=
  match value with
  | VFloat _ => true
  | _ => false
  end.

(** The operand of an arithmetic operator: an exact integer (a [bool] counts
    as 0 or 1), a float, or not a number. *)
Inductive operand : Type :=
| OInt (z : Z)
| OFloat (f : float)
| OStr (s : string).

Definition operand_of (v : RedisValueType) : operand :=
  match v with
  | VInt z => OInt z
  | VBool b => OInt (Z.b2z b)
  | VFloat f => OFloat f
  | VStr s => OStr s
  end.

(** [x + y] on the four scalar types. *)
Definition py_add (x y : RedisValueType) : result RedisValueType :=
  match operand_of x, operand_of y with
  | OInt a, OInt b => Ok (VInt (a + b))
  | OFloat f, OFloat g => Ok (VFloat (SFadd prec emax f g))
  | OInt a, OFloat g =>
      match float_of_int a with
      | Ok f => Ok (VFloat (SFadd prec emax f g))
      | Raise e => Raise e
      end
  | OFloat f, OInt b =>
      match float_of_int b with
      | Ok g => Ok (VFloat (SFadd prec emax f g))
      | Raise e => Raise e
      end
  | OStr s, OStr t => Ok (VStr (s +:+ t))
  | _, _ => Raise TypeError
  end.

(** [-x]. *)
Definition py_neg (x : RedisValueType) : result RedisValueType :=
  match operand_of x with
  | OInt a => Ok (VInt (- a))
  | OFloat f => Ok (VFloat (SFopp f))
  | OStr _ => Raise TypeError
  end.

(** ** The type codec (base.py) *)

(** The four helpers of [RedisObject] that [RedisCache] calls on single keys
    and values.  base.py is not part of the sources at hand, so the cache is
    parameterised by them. *)
Class TypeCodec : Type := {
  _key_to_typestring : RedisKeyType → string;
  _value_to_typestring : RedisValueType → string;
  _key_from_typestring : string → result RedisKeyType;
  _value_from_typestring : string → result RedisValueType;
}.

(** The contract the spec puts on them (section 3, round-trip invariant):
    decoding is the exact inverse of encoding, for keys and for values. *)
Class TypeCodecLaws (C : TypeCodec) : Prop := {
  value_round_trip v : _value_from_typestring (_value_to_typestring v) = Ok v;
  key_round_trip k : _key_from_typestring (_key_to_typestring k) = Ok k;
}.

(** *** A tagged-string codec *)

Module TaggedCodec.

(** [s.startswith(p)] and [s[len(p):]] in one: the rest of [s] after the
    prefix [p], if [s] starts with it. *)
Fixpoint strip_prefix (p s : string) : option string :=
  match p, s with
  | EmptyString, _ => Some s
  | String a p', String b s' =>
      if Ascii.eqb a b then strip_prefix p' s' else None
  | String _ _, EmptyString => None
  end.

(** The text before and after the first occurrence of [c]. *)
Fixpoint split_at (c : ascii) (s : string) : option (string * string) :=
  match s with
  | EmptyString => None
  | String a s' =>
      if Ascii.eqb a c then Some (EmptyString, s')
      else match split_at c s' with
           | Some (l, r) => Some (String a l, r)
           | None => None
           end
  end.

Fixpoint free_of (c : ascii) (s : string) : bool :=
  match s with
  | EmptyString => true
  | String a s' => negb (Ascii.eqb a c) && free_of c s'
  end.

(** Decimal text of a Python [int], and [int(text)]. *)
Definition int_text (z : Z) : string := NilZero.string_of_int (Z.to_int z).
Definition int_of_text (s : string) : option Z :=
  match NilZero.int_of_string s with
  | Some d => Some (Z.of_int d)
  | None => None
  end.

(** Text of a float: the special values by name, a finite float as its
    signed integral significand and binary exponent, [<m>p<e>], in the
    manner of [float.hex].  Every float has one text and reads back from
    it unchanged. *)
Definition float_text (f : float) : string :=
  match f with
  | S754_nan => "nan"
  | S754_infinity false => "inf"
  | S754_infinity true => "-inf"
  | S754_zero false => "0.0"
  | S754_zero true => "-0.0"
  | S754_finite s m e =>
      int_text (cond_Zopp s (Zpos m)) +:+ String "p" (int_text e)
  end.

Definition float_of_text (s : string) : option float :=
  match split_at "p" s with
  | Some (m, e) =>
      match int_of_text m, int_of_text e with
      | Some (Zpos m), Some e => Some (S754_finite false m e)
      | Some (Zneg m), Some e => Some (S754_finite true m e)
      | _, _ => None
      end
  | None =>
      if String.eqb s "nan" then Some S754_nan
      else if String.eqb s "inf" then Some (S754_infinity false)
      else if String.eqb s "-inf" then Some (S754_infinity true)
      else if String.eqb s "0.0" then Some (S754_zero false)
      else if String.eqb s "-0.0" then Some (S754_zero true)
      else None
  end.

Definition bool_text (b : bool) : string := if b then "1" else "0".
Definition bool_of_text (s : string) : option bool :=
  match int_of_text s with
  | Some z => Some (negb (Z.eqb z 0))
  | None => None
  end.

Definition STRING : string := "STRING:".
Definition INT : string := "INT:".
Definition FLOAT : string := "FLOAT:".
Definition BOOL : string := "BOOL:".

Definition parsed {A B} (f : A → B) (o : option A) : result B :=
  match o with
  | Some a => Ok (f a)
  | None => Raise CorruptDataError
  end.

(** Modelled from the spec: [RedisObject._key_to_typestring] (base.py is
    not among the sources).  A key becomes a type discriminator prefix
    followed by its text; the prefixes are the spec's illustrative ones. *)
Definition key_to_typestring (key : RedisKeyType) : string :=
  match key with
  | KStr s => STRING +:+ s
  | KInt z => INT +:+ int_text z
  end.

(** Modelled from the spec: [RedisObject._value_to_typestring] (base.py is
    not among the sources).  One prefix per type, a boolean under its own
    prefix, never under the integer one. *)
Definition value_to_typestring (value : RedisValueType) : string :=
  match value with
  | VStr s => STRING +:+ s
  | VInt z => INT +:+ int_text z
  | VFloat f => FLOAT +:+ float_text f
  | VBool b => BOOL +:+ bool_text b
  end.

(** Modelled from the spec: [RedisObject._key_from_typestring] (base.py is
    not among the sources).  The inverse of [key_to_typestring]; a string
    with no recognised prefix is corrupt data. *)
Definition key_from_typestring (s : string) : result RedisKeyType :=
  match strip_prefix STRING s with
  | Some t => Ok (KStr t)
  | None =>
      match strip_prefix INT s with
      | Some t => parsed KInt (int_of_text t)
      | None => Raise CorruptDataError
      end
  end.

(** Modelled from the spec: [RedisObject._value_from_typestring] (base.py
    is not among the sources).  The inverse of [value_to_typestring]. *)
Definition value_from_typestring (s : string) : result RedisValueType :=
  match strip_prefix STRING s with
  | Some t => Ok (VStr t)
  | None =>
      match strip_prefix INT s with
      | Some t => parsed VInt (int_of_text t)
      | None =>
          match strip_prefix FLOAT s with
          | Some t => parsed VFloat (float_of_text t)
          | None =>
              match strip_prefix BOOL s with
              | Some t => parsed VBool (bool_of_text t)
              | None => Raise CorruptDataError
              end
          end
      end
  end.

Definition codec : TypeCodec := {|
  _key_to_typestring := key_to_typestring;
  _value_to_typestring := value_to_typestring;
  _key_from_typestring := key_from_typestring;
  _value_from_typestring := value_from_typestring;
|}.

End TaggedCodec.

(** ** The store, the locks and the caller's dictionaries *)

(** A Python [dict] with cache keys and values, as [items] and [to_dict]
    build and as [update] receives. *)
Abbreviation pydict := (gmap RedisKeyType RedisValueType).

(** What the coroutines act on: the Redis server (one hash per namespace
    key), the namespace locks that are held, and the heap of Python
    dictionaries handed out to callers (a reference is an index). *)
Record world : Type := World {
  redis : gmap string (gmap string string);
  locks : gset string;
  heap : list pydict;
}.

Definition with_redis (r : gmap string (gmap string string)) (w : world) : world :=
  World r (locks w) (heap w).
Definition with_locks (l : gset string) (w : world) : world :=
  World (redis w) l (heap w).
Definition with_heap (h : list pydict) (w : world) : world :=
  World (redis w) (locks w) h.

(** The hash stored at [ns]; Redis has no empty hashes, a missing key reads
    as one. *)
Definition hash (w : world) (ns : string) : gmap string string :=
  default ∅ (redis w !! ns).

Definition put_hash (ns : string) (h : gmap string string) (w : world) : world :=
  with_redis (if decide (h = ∅) then delete ns (redis w) else <[ns:=h]> (redis w)) w.

(** The commands a coroutine awaits: those of the pooled connection
    (aioredis), the namespace lock, and allocation and reading of a Python
    dictionary.  The index is the type of the reply; the reply of
    [hmset_dict] is its outcome, for it can raise. *)
Inductive cmd : Type → Type :=
| hset (ns field value : string) : cmd unit
| hget (ns field : string) : cmd (option string)
| hdel (ns field : string) : cmd Z
| hexists (ns field : string) : cmd bool
| hgetall (ns : string) : cmd (gmap string string)
| hlen (ns : string) : cmd Z
| hmset_dict (ns : string) (d : gmap string string) : cmd (result unit)
| delete_key (ns : string) : cmd unit
| acquire (ns : string) : cmd unit
| release (ns : string) : cmd unit
| new_dict (d : pydict) : cmd nat
| read_dict (l : nat) : cmd pydict.

(** One command on the world, the connection's as Redis documents them:
    HDEL replies with the number of fields it removed and ignores a missing
    field, HMSET overwrites the fields it is given, DEL removes the whole
    hash.  [hmset_dict] raises [ValueError] on an empty dictionary, before
    anything is sent to the server.  [None]: the command cannot proceed (the lock is held, so the task
    stays suspended; a reference is dangling). *)
Definition exec {X} (c : cmd X) (w : world) : option (X * world) :=
  match c in cmd X return option (X * world) with
  | hset ns field value => Some (tt, put_hash ns (<[field:=value]> (hash w ns)) w)
  | hget ns field => Some (hash w ns !! field, w)
  | hdel ns field =>
      Some (match hash w ns !! field with Some _ => 1 | None => 0 end,
            put_hash ns (base.delete field (hash w ns)) w)
  | hexists ns field => Some (bool_decide (is_Some (hash w ns !! field)), w)
  | hgetall ns => Some (hash w ns, w)
  | hlen ns => Some (Z.of_nat (size (hash w ns)), w)
  | hmset_dict ns d =>
      if decide (d = ∅) then Some (Raise ValueError, w)
      else Some (Ok tt, put_hash ns (d ∪ hash w ns) w)
  | delete_key ns => Some (tt, with_redis (base.delete ns (redis w)) w)
  | acquire ns =>
      if decide (ns ∈ locks w) then None
      else Some (tt, with_locks ({[ns]} ∪ locks w) w)
  | release ns => Some (tt, with_locks (locks w ∖ {[ns]}) w)
  | new_dict d => Some (length (heap w), with_heap (heap w ++ [d]) w)
  | read_dict l =>
      match heap w !! l with
      | Some d => Some (d, w)
      | None => None
      end
  end.

(** ** Coroutines *)

(** A coroutine is a tree of commands: it is done, with a value or an
    exception, or it awaits a command and goes on from the reply. *)
Inductive prog (A : Type) : Type :=
| Done (r : result A)
| Vis {X : Type} (c : cmd X) (k : X → prog A).
Arguments Done {A} r.
Arguments Vis {A X} c k.

Definition raise {A} (e : exn) : prog A := Done (Raise e).
Definition call {X} (c : cmd X) : prog X := Vis c (λ x, Done (Ok x)).

Fixpoint bind {A B} (f : A → prog B) (p : prog A) : prog B :=
  match p with
  | Done (Ok a) => f a
  | Done (Raise e) => Done (Raise e)
  | Vis c k => Vis c (λ x, bind f (k x))
  end.

#[global] Instance prog_ret : MRet prog := λ A a, Done (Ok a).
#[global] Instance prog_bind : MBind prog := λ A B f p, bind f p.

(** [try: p finally: c]: [c] runs whatever [p] ends with, and [p]'s outcome
    stands unless [c] itself raises. *)
Fixpoint finally {A} (p : prog A) (c : prog unit) : prog A :=
  match p with
  | Done r => c ≫= λ _, Done r
  | Vis c' k => Vis c' (λ x, finally (k x) c)
  end.

(** Running one coroutine to its end with nothing else scheduled. *)
Fixpoint run {A} (p : prog A) (w : world) : option (result A * world) :=
  match p with
  | Done r => Some (r, w)
  | Vis c k =>
      match exec c w with
      | Some (x, w') => run (k x) w'
      | None => None
      end
  end.

(** One step of one task: up to its next await. *)
Definition task_step {A} (p : prog A) (w : world) : option (prog A * world) :=
  match p with
  | Done _ => None
  | Vis c k =>
      match exec c w with
      | Some (x, w') => Some (k x, w')
      | None => None
      end
  end.

(** The cooperative scheduler of the spec (section 5): tasks interleave at
    their awaits, and any task that can step may be the next to run.  A task
    waiting for a held lock cannot step. *)
Inductive sched_step {A} : list (prog A) * world → list (prog A) * world → Prop :=
| sched_pick i ts p p' w w' :
    ts !! i = Some p →
    task_step p w = Some (p', w') →
    sched_step (ts, w) (<[i:=p']> ts, w').

Definition finished {A} (ts : list (prog A)) : Prop :=
  Forall (λ p, ∃ r, p = Done r) ts.

(** Following a schedule: at each turn the named task steps if it can. *)
Definition sched_turn {A} (c : list (prog A) * world) (i : nat) : list (prog A) * world :=
  match c.1 !! i with
  | Some p =>
      match task_step p c.2 with
      | Some (p', w') => (<[i:=p']> c.1, w')
      | None => c
      end
  | None => c
  end.

Definition sched_run {A} (schedule : list nat) (c : list (prog A) * world)
    : list (prog A) * world :=
  foldl sched_turn c schedule.

(** ** RedisCache *)

(** The methods of the class, in the order of cache.py.  Taking a connection
    from the pool ([with await self._get_pool_connection()]) and the
    [log.debug] calls have no effect on the store and are left out. *)
Module Cache.
Section methods.
Context {codec : TypeCodec}.

(** [self]: what the methods read of the instance is its namespace. *)
Record RedisCache : Type := { namespace : string }.

(** Modelled from the spec: the [namespace_lock] decorator (base.py is not
    among the sources).  The decorated method takes one more argument,
    [acquire_lock]; when it is set the whole method runs under the lock of
    the namespace, released on every exit path; when it is not, the method
    runs as it is, relying on the lock its caller holds. *)
Definition namespace_lock {A} (self : RedisCache) (method : prog A)
    (acquire_lock : bool) : prog A :=
  if acquire_lock then
    call (acquire (namespace self));;
    finally method (call (release (namespace self)))
  else method.

(** Modelled from the spec: [RedisObject._dict_to_typestring] (base.py is
    not among the sources): the codec applied to every key and value. *)
Definition _dict_to_typestring (dictionary : pydict) : gmap string string :=
  kmap _key_to_typestring (_value_to_typestring <$> dictionary).

Fixpoint decode_items (l : list (string * string))
    : result (list (RedisKeyType * RedisValueType)) :=
  match l with
  | [] => Ok []
  | (k, v) :: l =>
      match _key_from_typestring k with
      | Raise e => Raise e
      | Ok k' =>
          match _value_from_typestring v with
          | Raise e => Raise e
          | Ok v' =>
              match decode_items l with
              | Raise e => Raise e
              | Ok l' => Ok ((k', v') :: l')
              end
          end
      end
  end.

(** Modelled from the spec: [RedisObject._dict_from_typestring] (base.py
    is not among the sources): every field and value decoded, into a new
    dictionary (a later pair overwrites an earlier one with the same key). *)
Definition _dict_from_typestring (dictionary : gmap string string) : result pydict :=
  match decode_items (map_to_list dictionary) with
  | Ok l => Ok (foldl (λ d kv, <[kv.1:=kv.2]> d) ∅ l)
  | Raise e => Raise e
  end.

Definition set (self : RedisCache) (key : RedisKeyType) (value : RedisValueType)
    : bool → prog unit :=
  namespace_lock self (
    let key := _key_to_typestring key in
    let value := _value_to_typestring value in
    call (hset (namespace self) key value)).

Definition get (self : RedisCache) (key : RedisKeyType)
    (default : option RedisValueType) : bool → prog (option RedisValueType) :=
  namespace_lock self (
    let key := _key_to_typestring key in
    value ← call (hget (namespace self) key);
    match value with
    | None => mret default
    | Some value =>
        value ← Done (_value_from_typestring value);
        mret (Some value)
    end).

(** The method is annotated [-> None] but ends in
    [return await connection.hdel(...)]: it returns Redis' reply, the
    number of fields removed. *)
Definition delete (self : RedisCache) (key : RedisKeyType)
    : bool → prog (option RedisValueType) :=
  namespace_lock self (
    let key := _key_to_typestring key in
    removed ← call (hdel (namespace self) key);
    mret (Some (VInt removed))).

Definition contains (self : RedisCache) (key : RedisKeyType) : bool → prog bool :=
  namespace_lock self (
    let key := _key_to_typestring key in
    exists_ ← call (hexists (namespace self) key);
    mret exists_).

(** The result is the [ItemsView] of a dictionary built for this call;
    it is given as the reference of that dictionary. *)
Definition items (self : RedisCache) : bool → prog nat :=
  namespace_lock self (
    reply ← call (hgetall (namespace self));
    decoded ← Done (_dict_from_typestring reply);
    call (new_dict decoded)).

Definition length (self : RedisCache) : bool → prog Z :=
  namespace_lock self (
    number_of_items ← call (hlen (namespace self));
    mret number_of_items).

Definition to_dict (self : RedisCache) : bool → prog nat :=
  namespace_lock self (
    view ← items self false;
    pairs ← call (read_dict view);
    call (new_dict pairs)).

Definition clear (self : RedisCache) : bool → prog unit :=
  namespace_lock self (call (delete_key (namespace self))).

Definition pop (self : RedisCache) (key : RedisKeyType)
    (default : option RedisValueType) : bool → prog (option RedisValueType) :=
  namespace_lock self (
    value ← get self key default false;
    delete self key false;;
    mret value).

(** What [hmset_dict] raises leaves the method as it came. *)
Definition update (self : RedisCache) (items : pydict) : bool → prog unit :=
  namespace_lock self (
    outcome ← call (hmset_dict (namespace self) (_dict_to_typestring items));
    Done outcome).

Definition increment (self : RedisCache) (key : RedisKeyType)
    (amount : RedisValueType) : bool → prog unit :=
  namespace_lock self (
    value ← get self key None false;
    match value with
    | None => raise KeyError
    | Some value =>
        if isinstance_int value || isinstance_float value then
          value ← Done (py_add value amount);
          set self key value false
        else raise TypeError
    end).

Definition decrement (self : RedisCache) (key : RedisKeyType)
    (amount : RedisValueType) : prog unit :=
  negated ← Done (py_neg amount);
  increment self key negated true.

End methods.
End Cache.

(** ** What the properties speak of *)

(** A numeric amount, as [increment] and [decrement] take it: an [int], a
    [float], or a [bool], which Python counts as the integer 0 or 1. *)
Inductive number : Type :=
| NInt (z : Z)
| NFloat (f : float)
| NBool (b : bool).

Definition number_value (n : number) : RedisValueType :=
  match n with
  | NInt z => VInt z
  | NFloat f => VFloat f
  | NBool b => VBool b
  end.
Coercion number_value : number >-> RedisValueType.

(** [-amount] of a numeric amount. *)
Definition number_neg (n : number) : number :=
  match n with
  | NInt z => NInt (- z)
  | NFloat f => NFloat (SFopp f)
  | NBool b => NInt (- Z.b2z b)
  end.

(** [decrement] in the words of the spec: [increment(key, -amount)]. *)
Definition decrement_spec {codec : TypeCodec} (self : Cache.RedisCache)
    (key : RedisKeyType) (amount : number) : prog unit :=
  Cache.increment self key (number_neg amount) true.



(** Commands other than those of the lock neither read nor change the set
    of held locks. *)
Definition lock_cmd {X} (c : cmd X) : bool :=
  match c with
  | acquire _ | release _ => true
  | _ => false
  end.

Fixpoint no_lock_cmds {A} (p : prog A) : Prop :=
  match p with
  | Done _ => True
  | Vis c k => lock_cmd c = false ∧ ∀ x, no_lock_cmds (k x)
  end.

(** How far a task running [increment(key, 1)] has come. *)
Inductive phase : Type :=
| AtStart      (* about to acquire the namespace lock *)
| Locked       (* holds the lock, about to read *)
| Read         (* has read and added, about to write *)
| Written      (* has written, about to release *)
| Finished.

#[global] Instance phase_eq_dec : EqDecision phase.
Proof. solve_decision. Defined.

Definition critical (ph : phase) : bool :=
  match ph with
  | Locked | Read | Written => true
  | AtStart | Finished => false
  end.

Definition wrote (ph : phase) : nat :=
  match ph with
  | Written | Finished => 1
  | AtStart | Locked | Read => 0
  end.

Definition remaining (ph : phase) : nat :=
  match ph with
  | AtStart => 4
  | Locked => 3
  | Read => 2
  | Written => 1
  | Finished => 0
  end.

Section notions.
Context {codec : TypeCodec}.
Variable self : Cache.RedisCache.

Local Abbreviation ns := (Cache.namespace self).

(** The stored, still encoded, value of [key]. *)
Definition field (w : world) (key : RedisKeyType) : option string :=
  hash w ns !! _key_to_typestring key.

(** What [get] makes of a field. *)
Definition decoded (default : option RedisValueType) (o : option string)
    : result (option RedisValueType) :=
  match o with
  | None => Ok default
  | Some t =>
      match _value_from_typestring t with
      | Ok v => Ok (Some v)
      | Raise e => Raise e
      end
  end.

(** [w] with [value] written under [key]. *)
Definition written (key : RedisKeyType) (value : RedisValueType) (w : world) : world :=
  put_hash ns (<[_key_to_typestring key:=_value_to_typestring value]> (hash w ns)) w.

(** What [increment] does on the field it finds. *)
Definition incremented (amount : RedisValueType) (key : RedisKeyType) (w : world)
    : result unit * world :=
  match decoded None (field w key) with
  | Raise e => (Raise e, w)
  | Ok None => (Raise KeyError, w)
  | Ok (Some value) =>
      if isinstance_int value || isinstance_float value then
        match py_add value amount with
        | Ok value => (Ok tt, written key value w)
        | Raise e => (Raise e, w)
        end
      else (Raise TypeError, w)
  end.

(** The rest of the coroutine [increment(key, 1)] in each phase; [sum] is
    what a task that has read is about to write. *)
Definition phase_prog (key : RedisKeyType) (ph : phase) (sum : RedisValueType)
    : prog unit :=
  match ph with
  | AtStart => Cache.increment self key (VInt 1) true
  | Locked => finally (Cache.increment self key (VInt 1) false) (call (release ns))
  | Read => finally (Cache.set self key sum false) (call (release ns))
  | Written => finally (Done (Ok tt)) (call (release ns))
  | Finished => Done (Ok tt)
  end.

(** The value and the field after [n] of the two writes of two increments
    by 1, from the field [t] holding [v0], [v1] being [v0 + 1] and [v2]
    being [v1 + 1]. *)
Definition value_after (v0 v1 v2 : RedisValueType) (n : nat) : RedisValueType :=
  match n with 0%nat => v0 | 1%nat => v1 | _ => v2 end.
Definition field_after (t : string) (v0 v1 v2 : RedisValueType) (n : nat) : string :=
  match n with 0%nat => t | _ => _value_to_typestring (value_after v0 v1 v2 n) end.

(** The invariant of the two tasks: at most one is between acquire and
    release, the lock is held exactly then, the field holds the value after
    the writes done so far, and a task that has read is about to write
    that value plus 1. *)
Definition inv_at (key : RedisKeyType) (t : string) (v0 v1 v2 : RedisValueType)
    (ph1 ph2 : phase) (c : list (prog unit) * world) : Prop :=
  c.1 = [phase_prog key ph1 (value_after v0 v1 v2 (S (wrote ph1 + wrote ph2)));
         phase_prog key ph2 (value_after v0 v1 v2 (S (wrote ph1 + wrote ph2)))]
  ∧ critical ph1 && critical ph2 = false
  ∧ (ns ∈ locks c.2 ↔ critical ph1 || critical ph2 = true)
  ∧ field c.2 key = Some (field_after t v0 v1 v2 (wrote ph1 + wrote ph2)).

End notions.

(** ** Concrete caches and values *)

(** The cache of the class docstring: [SomeCog.cache], on the tagged codec. *)
Definition some_cog_cache : Cache.RedisCache := {| Cache.namespace := "SomeCog.cache" |}.

(** A freshly started process on an empty server. *)
Definition fresh : world := World ∅ ∅ [].

(** [fresh] after [set(key, value)]. *)
Definition holding (key : RedisKeyType) (value : RedisValueType) : world :=
  put_hash "SomeCog.cache"
    {[ TaggedCodec.key_to_typestring key := TaggedCodec.value_to_typestring value ]}
    fresh.

(** 2^53, 2^53 + 2, 2^54, 2^54 + 4 and 0.5 as binary64 floats. *)
Definition two_53 : float := S754_finite false 4503599627370496 1.
Definition two_53_plus_2 : float := S754_finite false 4503599627370497 1.
Definition two_54 : float := S754_finite false 4503599627370496 2.
Definition two_54_plus_4 : float := S754_finite false 4503599627370497 2.
Definition one_half : float := S754_finite false 4503599627370496 (-53).

(** Two tasks incrementing the same key by 1, and one of their schedules. *)
Definition two_tasks : list (prog unit) :=
  [Cache.increment (codec:=TaggedCodec.codec) some_cog_cache (KStr "key") (VInt 1) true;
   Cache.increment (codec:=TaggedCodec.codec) some_cog_cache (KStr "key") (VInt 1) true].
Definition interleaved : list nat := [0; 1; 0; 0; 1; 0; 1; 1; 1; 1]%nat.

(** ** The calls a user can make *)

Section calls.
Context {codec : TypeCodec}.
Variable self : Cache.RedisCache.

Local Abbreviation ns := (Cache.namespace self).

(** [w] with [key] removed from the namespace, and with the whole namespace
    removed. *)
Definition deleted (key : RedisKeyType) (w : world) : world :=
  put_hash ns (base.delete (_key_to_typestring key) (hash w ns)) w.
Definition cleared (w : world) : world :=
  with_redis (base.delete ns (redis w)) w.

(** [w] after [update(items)] with [items] not empty. *)
Definition updated (items : pydict) (w : world) : world :=
  put_hash ns (Cache._dict_to_typestring items ∪ hash w ns) w.

(** A call of one of the decorated methods, with its [acquire_lock]
    argument. *)
Inductive api_call (acquire_lock : bool) : ∀ {A : Type}, prog A → Prop :=
| call_set key value : api_call acquire_lock (Cache.set self key value acquire_lock)
| call_get key default : api_call acquire_lock (Cache.get self key default acquire_lock)
| call_delete key : api_call acquire_lock (Cache.delete self key acquire_lock)
| call_contains key : api_call acquire_lock (Cache.contains self key acquire_lock)
| call_items : api_call acquire_lock (Cache.items self acquire_lock)
| call_length : api_call acquire_lock (Cache.length self acquire_lock)
| call_to_dict : api_call acquire_lock (Cache.to_dict self acquire_lock)
| call_clear : api_call acquire_lock (Cache.clear self acquire_lock)
| call_pop key default : api_call acquire_lock (Cache.pop self key default acquire_lock)
| call_update items : api_call acquire_lock (Cache.update self items acquire_lock)
| call_increment key amount :
    api_call acquire_lock (Cache.increment self key amount acquire_lock).

(** The calls that only read. *)
Inductive reader_call (acquire_lock : bool) : ∀ {A : Type}, prog A → Prop :=
| read_get key default : reader_call acquire_lock (Cache.get self key default acquire_lock)
| read_contains key : reader_call acquire_lock (Cache.contains self key acquire_lock)
| read_items : reader_call acquire_lock (Cache.items self acquire_lock)
| read_length : reader_call acquire_lock (Cache.length self acquire_lock)
| read_to_dict : reader_call acquire_lock (Cache.to_dict self acquire_lock).

(** Two tasks, each a method body [m] run under the namespace lock, in the
    order in which they take the lock: [ma] first, [mb] second.  [pa] and
    [pb] are what is left of them, [w0] is the world they started in.  The
    first is inside its body or done; the second still waits, is inside its
    body, or is done; and what is left of a task inside its body ends as
    the whole call ends when run alone from where its turn began. *)
Inductive serial_inv {A : Type} (ma mb : prog A) (w0 : world)
    : prog A → prog A → world → Prop :=
| first_inside qa w :
    no_lock_cmds qa → ns ∈ locks w →
    run (finally qa (call (release ns))) w = run (Cache.namespace_lock self ma true) w0 →
    serial_inv ma mb w0
      (finally qa (call (release ns))) (Cache.namespace_lock self mb true) w
| first_done ra w1 :
    run (Cache.namespace_lock self ma true) w0 = Some (ra, w1) →
    serial_inv ma mb w0 (Done ra) (Cache.namespace_lock self mb true) w1
| second_inside ra w1 qb w :
    run (Cache.namespace_lock self ma true) w0 = Some (ra, w1) →
    no_lock_cmds qb → ns ∈ locks w →
    run (finally qb (call (release ns))) w = run (Cache.namespace_lock self mb true) w1 →
    serial_inv ma mb w0 (Done ra) (finally qb (call (release ns))) w
| both_done ra w1 rb w :
    run (Cache.namespace_lock self ma true) w0 = Some (ra, w1) →
    run (Cache.namespace_lock self mb true) w1 = Some (rb, w) →
    serial_inv ma mb w0 (Done ra) (Done rb) w.

(** The invariant of the two tasks [m1] and [m2] under every schedule:
    nothing has happened yet, or one of them took the lock first. *)
Definition serial {A : Type} (m1 m2 : prog A) (w0 : world)
    (c : list (prog A) * world) : Prop :=
  c = ([Cache.namespace_lock self m1 true; Cache.namespace_lock self m2 true], w0)
  ∨ (∃ p1 p2, c.1 = [p1; p2] ∧ serial_inv m1 m2 w0 p1 p2 c.2)
  ∨ (∃ p1 p2, c.1 = [p1; p2] ∧ serial_inv m2 m1 w0 p2 p1 c.2).

End calls.

(** A namespace with a field that no codec wrote: ["garbage"] under the
    encoded key ["key"]. *)
Definition corrupted : world :=
  put_hash "SomeCog.cache"
    {[ TaggedCodec.key_to_typestring (KStr "key") := "garbage" ]} fresh.

(** A second cache on the same server, and a server where both caches hold
    something under ["key"]. *)
Definition other_cog_cache : Cache.RedisCache := {| Cache.namespace := "OtherCog.cache" |}.
Definition two_cogs : world :=
  put_hash "OtherCog.cache"
    {[ TaggedCodec.key_to_typestring (KStr "key") := TaggedCodec.value_to_typestring (VInt 9) ]}
    (holding (KStr "key") (VInt 3)).

(** ** Tasks with results of different types *)

(** The scheduler keeps its tasks in one list.  Two coroutines whose
    results have different types are scheduled together with their results
    in a sum, the first on the left and the second on the right; what they
    await is not changed by that. *)
#[global] Instance result_fmap : FMap result := λ A B f r,
  match r with
  | Ok a => Ok (f a)
  | Raise e => Raise e
  end.
#[global] Instance prog_fmap : FMap prog := λ A B f p, p ≫= λ a, mret (f a).

(** Two coroutines that await the same commands and go on alike from every
    reply. *)
Fixpoint same_prog {A} (p q : prog A) : Prop :=
  match p with
  | Done r => q = Done r
  | Vis c k => ∃ k', q = Vis c k' ∧ ∀ x, same_prog (k x) (k' x)
  end.

(** * Part II: properties *)

(** ** Running coroutines *)

Lemma run_bind {A B} (p : prog A) (f : A → prog B) (w : world) :
  run (p ≫= f) w =
  match run p w with
  | Some (Ok a, w') => run (f a) w'
  | Some (Raise e, w') => Some (Raise e, w')
  | None => None
  end.
Proof.
  unfold mbind, prog_bind. revert w.
  induction p as [[a|e]|X c k IH]; intros w; simpl; [done..|].
  destruct (exec c w) as [[x w']|]; [apply IH|done].
Qed.

Lemma run_finally {A} (p : prog A) (c : prog unit) (w : world) :
  run (finally p c) w =
  match run p w with
  | Some (r, w') =>
      match run c w' with
      | Some (Ok _, w'') => Some (r, w'')
      | Some (Raise e, w'') => Some (Raise e, w'')
      | None => None
      end
  | None => None
  end.
Proof.
  revert w. induction p as [r|X c' k IH]; intros w; simpl.
  - by rewrite run_bind.
  - destruct (exec c' w) as [[x w']|]; [apply IH|done].
Qed.

Lemma run_call {X} (c : cmd X) (w : world) :
  run (call c) w =
  match exec c w with
  | Some (x, w') => Some (Ok x, w')
  | None => None
  end.
Proof. simpl. by destruct (exec c w) as [[x w']|]. Qed.

Lemma run_done {A} (r : result A) (w : world) : run (Done r) w = Some (r, w).
Proof. done. Qed.

Lemma run_mret {A} (a : A) (w : world) : run (mret a) w = Some (Ok a, w).
Proof. done. Qed.

Lemma run_raise {A} (e : exn) (w : world) : run (@raise A e) w = Some (Raise e, w).
Proof. done. Qed.

(** ** The world *)

Lemma hash_put_hash ns h w : hash (put_hash ns h w) ns = h.
Proof.
  unfold hash, put_hash; simpl. case_decide as Hh.
  - by rewrite lookup_delete_eq, Hh.
  - by rewrite lookup_insert_eq.
Qed.

Lemma hash_put_hash_ne ns ns' h w :
  ns ≠ ns' → hash (put_hash ns h w) ns' = hash w ns'.
Proof.
  intros Hne. unfold hash, put_hash; simpl. case_decide.
  - by rewrite lookup_delete_ne.
  - by rewrite lookup_insert_ne.
Qed.

Lemma put_hash_put_hash ns h h' w :
  put_hash ns h' (put_hash ns h w) = put_hash ns h' w.
Proof.
  unfold put_hash, with_redis; simpl. f_equal.
  repeat case_decide;
    by rewrite ?delete_delete_eq, ?insert_insert_eq, ?delete_insert_eq,
               ?insert_delete_eq.
Qed.

Lemma exec_with_locks {X} (c : cmd X) (l : gset string) (w : world) :
  lock_cmd c = false →
  exec c (with_locks l w) =
  match exec c w with
  | Some (x, w') => Some (x, with_locks l w')
  | None => None
  end.
Proof.
  destruct c; simpl; try done.
  - intros _. by case_decide.
  - intros _. by destruct (heap w !! l0).
Qed.

Lemma run_with_locks {A} (p : prog A) (l : gset string) (w : world) :
  no_lock_cmds p →
  run p (with_locks l w) =
  match run p w with
  | Some (r, w') => Some (r, with_locks l w')
  | None => None
  end.
Proof.
  revert w. induction p as [r|X c k IH]; intros w; simpl; [done|].
  intros [Hc Hk]. rewrite exec_with_locks by done.
  destruct (exec c w) as [[x w']|]; [by apply IH|done].
Qed.

Lemma exec_locks {X} (c : cmd X) (w w' : world) (x : X) :
  lock_cmd c = false → exec c w = Some (x, w') → locks w' = locks w.
Proof.
  destruct c; simpl; try done; try by intros _ [= _ <-].
  - intros _. case_decide; by intros [= _ <-].
  - intros _. destruct (heap w !! l); by intros [= _ <-].
Qed.

Lemma run_locks {A} (p : prog A) (w w' : world) (r : result A) :
  no_lock_cmds p → run p w = Some (r, w') → locks w' = locks w.
Proof.
  revert w. induction p as [r0|X c k IH]; intros w; simpl.
  - by intros _ [= _ <-].
  - intros [Hc Hk]. destruct (exec c w) as [[x w1]|] eqn:E; [|done].
    intros Hrun. rewrite (IH x w1) by done. by eapply exec_locks.
Qed.

Lemma no_lock_cmds_bind {A B} (p : prog A) (f : A → prog B) :
  no_lock_cmds p → (∀ a, no_lock_cmds (f a)) → no_lock_cmds (p ≫= f).
Proof.
  unfold mbind, prog_bind. intros Hp Hf.
  induction p as [[a|e]|X c k IH]; simpl in *; [done..|].
  destruct Hp as [Hc Hk]. split; [done|]. intros x. by apply IH.
Qed.

Ltac solve_no_lock :=
  repeat match goal with
  | |- no_lock_cmds (_ ≫= _) => apply no_lock_cmds_bind
  | |- no_lock_cmds (call _) => by split
  | |- no_lock_cmds (Done _) => exact I
  | |- no_lock_cmds (mret _) => exact I
  | |- no_lock_cmds (raise _) => exact I
  | |- no_lock_cmds (match ?x with _ => _ end) => destruct x
  | |- ∀ _, _ => intro
  | |- no_lock_cmds (Cache.namespace_lock _ _ false) => unfold Cache.namespace_lock
  | |- no_lock_cmds _ => done
  end.

Lemma with_locks_id (w : world) : with_locks (locks w) w = w.
Proof. by destruct w. Qed.

(** Under a free lock a decorated method behaves as its body does. *)
Lemma run_namespace_lock {A} (self : Cache.RedisCache) (method : prog A) (w : world) :
  no_lock_cmds method →
  Cache.namespace self ∉ locks w →
  run (Cache.namespace_lock self method true) w = run method w.
Proof.
  intros Hm Hfree. unfold Cache.namespace_lock.
  rewrite run_bind, run_call. simpl.
  rewrite decide_False by done.
  rewrite run_finally, run_with_locks by done.
  destruct (run method w) as [[r w']|] eqn:E; [|done].
  rewrite run_call. simpl. do 2 f_equal.
  rewrite <- (with_locks_id w') at 2. unfold with_locks; simpl. f_equal.
  rewrite (run_locks _ _ _ _ Hm E).
  apply set_eq. intros x.
  rewrite elem_of_difference, elem_of_union, elem_of_singleton.
  split; [by intros [[->|?] ?]|]. intros Hx. split; [by right|by intros ->].
Qed.

(** ** The tagged codec keeps the contract *)

Section tagged_codec_facts.
Import TaggedCodec.

Lemma strip_prefix_app p s : strip_prefix p (p +:+ s) = Some s.
Proof.
  induction p as [|a p IH]; simpl; [done|].
  by rewrite Ascii.eqb_refl.
Qed.

Lemma split_at_app c l r :
  free_of c l = true → split_at c (l +:+ String c r) = Some (l, r).
Proof.
  induction l as [|a l IH]; simpl.
  - by rewrite Ascii.eqb_refl.
  - intros [Ha Hl]%andb_prop. apply negb_true_iff in Ha.
    by rewrite Ha, IH.
Qed.

Lemma free_of_uint d : free_of "p" (NilEmpty.string_of_uint d) = true.
Proof. induction d; simpl; auto. Qed.

Lemma free_of_int_text z : free_of "p" (int_text z) = true.
Proof.
  unfold int_text.
  destruct (Z.to_int z) as [d|d]; simpl; destruct d; simpl; auto using free_of_uint.
Qed.

Lemma to_int_proper z : Z.to_int z ≠ Pos Nil ∧ Z.to_int z ≠ Neg Nil.
Proof.
  destruct z as [|p|p]; simpl; split; try discriminate;
    intros [= E]; by apply DecimalPos.Unsigned.to_uint_nonnil in E.
Qed.

Lemma int_of_text_text z : int_of_text (int_text z) = Some z.
Proof.
  unfold int_of_text, int_text.
  destruct (to_int_proper z) as [Hp Hn].
  by rewrite NilZero.isi, DecimalZ.of_to.
Qed.

Lemma float_of_text_text f : float_of_text (float_text f) = Some f.
Proof.
  destruct f as [[]|[]| |s m e]; try reflexivity.
  unfold float_of_text, float_text.
  rewrite split_at_app by apply free_of_int_text.
  rewrite !int_of_text_text. by destruct s.
Qed.

Lemma bool_of_text_text b : bool_of_text (bool_text b) = Some b.
Proof. by destruct b. Qed.

Lemma value_from_to_typestring v :
  value_from_typestring (value_to_typestring v) = Ok v.
Proof.
  destruct v as [s|z|f|b]; unfold value_from_typestring, value_to_typestring.
  - by rewrite strip_prefix_app.
  - change (strip_prefix STRING (INT +:+ int_text z)) with (@None string).
    by rewrite strip_prefix_app, int_of_text_text.
  - change (strip_prefix STRING (FLOAT +:+ float_text f)) with (@None string).
    change (strip_prefix INT (FLOAT +:+ float_text f)) with (@None string).
    by rewrite strip_prefix_app, float_of_text_text.
  - change (strip_prefix STRING (BOOL +:+ bool_text b)) with (@None string).
    change (strip_prefix INT (BOOL +:+ bool_text b)) with (@None string).
    change (strip_prefix FLOAT (BOOL +:+ bool_text b)) with (@None string).
    by rewrite strip_prefix_app, bool_of_text_text.
Qed.

Lemma key_from_to_typestring k :
  key_from_typestring (key_to_typestring k) = Ok k.
Proof.
  destruct k as [s|z]; unfold key_from_typestring, key_to_typestring.
  - by rewrite strip_prefix_app.
  - change (strip_prefix STRING (INT +:+ int_text z)) with (@None string).
    by rewrite strip_prefix_app, int_of_text_text.
Qed.

(** The tagged strings of the spec's representative values. *)
Example tagged_strings :
  value_to_typestring (VStr "") = "STRING:"
  ∧ value_to_typestring (VStr "1") = "STRING:1"
  ∧ value_to_typestring (VInt 1) = "INT:1"
  ∧ value_to_typestring (VInt (-5)) = "INT:-5"
  ∧ value_to_typestring (VBool true) = "BOOL:1"
  ∧ value_to_typestring (VFloat (S754_finite false 7070651414971679 (-51)))
    = "FLOAT:7070651414971679p-51"
  ∧ value_from_typestring "BOOL:0" = Ok (VBool false)
  ∧ value_from_typestring "1" = Raise CorruptDataError.
Proof. by vm_compute. Qed.

Lemma tagged_codec_laws : TypeCodecLaws codec.
Proof.
  split; [apply value_from_to_typestring | apply key_from_to_typestring].
Qed.

End tagged_codec_facts.

(** ** The methods, one by one *)

Section methods_run.
Context {codec : TypeCodec}.
Variable self : Cache.RedisCache.

Local Abbreviation ns := (Cache.namespace self).
Local Abbreviation enc_key := _key_to_typestring.
Local Abbreviation enc_value := _value_to_typestring.

Lemma run_set key value b w :
  b = false ∨ ns ∉ locks w →
  run (Cache.set self key value b) w = Some (Ok tt, written self key value w).
Proof.
  unfold Cache.set. destruct b; [intros [?|Hfree]; [done|]|done].
  by rewrite run_namespace_lock.
Qed.

Lemma run_get key default b w :
  b = false ∨ ns ∉ locks w →
  run (Cache.get self key default b) w = Some (decoded default (field self w key), w).
Proof.
  assert (∀ w, run (Cache.get self key default false) w
               = Some (decoded default (field self w key), w)) as Hbody.
  { intros w'. unfold Cache.get, Cache.namespace_lock, field, decoded.
    rewrite run_bind, run_call. simpl.
    destruct (hash w' ns !! enc_key key) as [t|]; [|done].
    by destruct (_value_from_typestring t). }
  destruct b; [intros [?|Hfree]; [done|]|done].
  unfold Cache.get in *. rewrite run_namespace_lock; [apply Hbody| |done].
  solve_no_lock.
Qed.

Lemma run_delete key b w :
  b = false ∨ ns ∉ locks w →
  run (Cache.delete self key b) w =
  Some (Ok (Some (VInt (match field self w key with Some _ => 1 | None => 0 end))),
        put_hash ns (base.delete (enc_key key) (hash w ns)) w).
Proof.
  unfold Cache.delete. destruct b; [intros [?|Hfree]; [done|]|done].
  by rewrite run_namespace_lock.
Qed.

Lemma run_contains key b w :
  b = false ∨ ns ∉ locks w →
  run (Cache.contains self key b) w = Some (Ok (bool_decide (is_Some (field self w key))), w).
Proof.
  unfold Cache.contains. destruct b; [intros [?|Hfree]; [done|]|done].
  by rewrite run_namespace_lock.
Qed.

Lemma no_lock_get key default : no_lock_cmds (Cache.get self key default false).
Proof. unfold Cache.get. solve_no_lock. Qed.

Lemma no_lock_set key value : no_lock_cmds (Cache.set self key value false).
Proof. unfold Cache.set. solve_no_lock. Qed.

Lemma no_lock_delete key : no_lock_cmds (Cache.delete self key false).
Proof. unfold Cache.delete. solve_no_lock. Qed.

Lemma run_pop key default b w :
  b = false ∨ ns ∉ locks w →
  run (Cache.pop self key default b) w =
  match decoded default (field self w key) with
  | Ok value =>
      Some (Ok value, put_hash ns (base.delete (enc_key key) (hash w ns)) w)
  | Raise e => Some (Raise e, w)
  end.
Proof.
  assert (∀ w, run (Cache.pop self key default false) w
               = match decoded default (field self w key) with
                 | Ok value =>
                     Some (Ok value,
                           put_hash ns (base.delete (enc_key key) (hash w ns)) w)
                 | Raise e => Some (Raise e, w)
                 end) as Hbody.
  { intros w'. unfold Cache.pop, Cache.namespace_lock.
    rewrite run_bind, run_get by auto.
    destruct (decoded default (field self w' key)) as [value|e]; [|done].
    by rewrite run_bind, run_delete by auto. }
  destruct b; [intros [?|Hfree]; [done|]|done].
  unfold Cache.pop in *. rewrite run_namespace_lock; [apply Hbody| |done].
  pose proof no_lock_get. pose proof no_lock_delete. solve_no_lock.
Qed.

Lemma run_increment key amount b w :
  b = false ∨ ns ∉ locks w →
  run (Cache.increment self key amount b) w = Some (incremented self amount key w).
Proof.
  assert (∀ w, run (Cache.increment self key amount false) w
               = Some (incremented self amount key w)) as Hbody.
  { intros w'. unfold Cache.increment, Cache.namespace_lock, incremented.
    rewrite run_bind, run_get by auto.
    destruct (decoded None (field self w' key)) as [[value|]|e]; [|done..].
    destruct (isinstance_int value || isinstance_float value); [|done].
    rewrite run_bind, run_done.
    destruct (py_add value amount) as [value'|e]; [|done].
    by rewrite run_set by auto. }
  destruct b; [intros [?|Hfree]; [done|]|done].
  unfold Cache.increment in *. rewrite run_namespace_lock; [apply Hbody| |done].
  pose proof no_lock_get. pose proof no_lock_set. solve_no_lock.
Qed.

Lemma run_decrement key amount w :
  ns ∉ locks w →
  run (Cache.decrement self key amount) w =
  match py_neg amount with
  | Ok negated => Some (incremented self negated key w)
  | Raise e => Some (Raise e, w)
  end.
Proof.
  intros Hfree. unfold Cache.decrement. rewrite run_bind, run_done.
  destruct (py_neg amount); [|done]. by rewrite run_increment by auto.
Qed.

Lemma dict_to_typestring_empty (items : pydict) :
  Cache._dict_to_typestring items = ∅ ↔ items = ∅.
Proof.
  unfold Cache._dict_to_typestring, kmap. split.
  - intros Hempty. apply (fmap_empty_inv _value_to_typestring).
    apply map_to_list_empty_iff.
    destruct (map_to_list (_value_to_typestring <$> items)) as [|[j y] l]; [done|].
    simpl in Hempty. by apply insert_non_empty in Hempty.
  - intros ->. by rewrite fmap_empty, map_to_list_empty.
Qed.

(** An empty dictionary is refused and nothing is written. *)
Lemma run_update items b w :
  b = false ∨ ns ∉ locks w →
  run (Cache.update self items b) w =
  Some (if decide (items = ∅) then (Raise ValueError, w)
        else (Ok tt, put_hash ns (Cache._dict_to_typestring items ∪ hash w ns) w)).
Proof.
  assert (∀ w, run (Cache.update self items false) w
               = Some (if decide (items = ∅) then (Raise ValueError, w)
                       else (Ok tt, put_hash ns (Cache._dict_to_typestring items
                                                   ∪ hash w ns) w))) as Hbody.
  { intros w'. unfold Cache.update, Cache.namespace_lock.
    rewrite run_bind, run_call. simpl exec.
    destruct (decide (items = ∅)) as [->|Hne].
    - rewrite decide_True by by apply dict_to_typestring_empty. by rewrite run_done.
    - rewrite decide_False by by rewrite dict_to_typestring_empty. by rewrite run_done. }
  destruct b; [intros [?|Hfree]; [done|]|done].
  unfold Cache.update in *. rewrite run_namespace_lock; [apply Hbody| |done].
  solve_no_lock.
Qed.

End methods_run.

(** ** The concrete worlds hold no lock *)

Lemma fresh_unlocked ns : ns ∉ locks fresh.
Proof. apply not_elem_of_empty. Qed.

Lemma holding_unlocked key value ns : ns ∉ locks (holding key value).
Proof. apply not_elem_of_empty. Qed.

(** ** set, get, delete, pop *)

Section dictionary.
Context {codec : TypeCodec}.
Variable self : Cache.RedisCache.

Local Abbreviation ns := (Cache.namespace self).

Lemma key_to_typestring_inj {laws : TypeCodecLaws codec} k1 k2 :
  _key_to_typestring k1 = _key_to_typestring k2 → k1 = k2.
Proof.
  intros E. pose proof (key_round_trip k1) as H1.
  rewrite E, key_round_trip in H1. congruence.
Qed.

Lemma value_to_typestring_inj {laws : TypeCodecLaws codec} v1 v2 :
  _value_to_typestring v1 = _value_to_typestring v2 → v1 = v2.
Proof.
  intros E. pose proof (value_round_trip v1) as H1.
  rewrite E, value_round_trip in H1. congruence.
Qed.

Lemma field_put_hash w key h : field self (put_hash ns h w) key = h !! _key_to_typestring key.
Proof. unfold field. by rewrite hash_put_hash. Qed.

Lemma decoded_encoded {laws : TypeCodecLaws codec} default value :
  decoded default (Some (_value_to_typestring value)) = Ok (Some value).
Proof. unfold decoded. by rewrite value_round_trip. Qed.

(** C1. After [set(key, value)], [get(key)] returns [value] itself, of the
    type it was set with, whatever the supported key and value; and when
    the integer 1 and the string "1" are set under two different keys,
    each key reads back its own, the two being different values with
    different encodings. *)
Theorem set_then_get {laws : TypeCodecLaws codec}
    (key : RedisKeyType) (value : RedisValueType)
    (default : option RedisValueType) (w : world) :
  ns ∉ locks w →
  run (Cache.set self key value true;; Cache.get self key default true) w
  = Some (Ok (Some value), written self key value w)
  ∧ (∀ k1 k2 : RedisKeyType, k1 ≠ k2 →
     ∃ w', run (Cache.set self k1 (VInt 1) true;;
                Cache.set self k2 (VStr "1") true;;
                a ← Cache.get self k1 default true;
                b ← Cache.get self k2 default true;
                mret (a, b)) w
           = Some (Ok (Some (VInt 1), Some (VStr "1")), w'))
  ∧ VInt 1 ≠ VStr "1"
  ∧ _value_to_typestring (VInt 1) ≠ _value_to_typestring (VStr "1").
Proof.
  intros Hfree. split; [|split; [|split]].
  - rewrite run_bind, run_set by auto.
    rewrite run_get by auto. unfold written.
    by rewrite field_put_hash, lookup_insert_eq, decoded_encoded.
  - intros k1 k2 Hne. eexists.
    rewrite run_bind, run_set by auto.
    rewrite run_bind, run_set by auto.
    rewrite run_bind, run_get by auto. unfold written.
    rewrite put_hash_put_hash, hash_put_hash, field_put_hash.
    rewrite lookup_insert_ne, lookup_insert_eq
      by (intros E; by apply key_to_typestring_inj in E).
    rewrite decoded_encoded.
    rewrite run_bind, run_get by auto.
    by rewrite field_put_hash, lookup_insert_eq, decoded_encoded.
  - discriminate.
  - intros E. by apply value_to_typestring_inj in E.
Qed.

(** C6. [get] on an absent key returns the default it was given, without
    raising and without touching the world; with no default given, that
    is [None]. *)
Theorem get_absent_returns_default
    (key : RedisKeyType) (default : option RedisValueType) (w : world) :
  ns ∉ locks w →
  field self w key = None →
  run (Cache.get self key default true) w = Some (Ok default, w)
  ∧ run (Cache.get self key None true) w = Some (Ok None, w).
Proof.
  intros Hfree Habsent. rewrite !run_get by auto. by rewrite Habsent.
Qed.

(** C4 (what the code does). [delete] does not return [None]: it returns
    Redis' reply to HDEL, the integer 1 when the key was there and 0 when
    it was not.  On an absent key it does not raise and every entry of the
    namespace, and of every other namespace, stays as it was. *)
Theorem delete_returns_removed_count (key : RedisKeyType) (w : world) :
  ns ∉ locks w →
  ∃ (removed : Z) (w' : world),
    run (Cache.delete self key true) w = Some (Ok (Some (VInt removed)), w')
    ∧ (is_Some (field self w key) → removed = 1)
    ∧ (field self w key = None →
       removed = 0 ∧ ∀ ns', hash w' ns' = hash w ns').
Proof.
  intros Hfree. eexists _, _. rewrite run_delete by auto.
  split; [done|]. split.
  - by intros [t ->].
  - intros Habsent. rewrite Habsent. split; [done|]. intros ns'.
    destruct (decide (ns = ns')) as [<-|Hne].
    + rewrite hash_put_hash. by apply delete_id.
    + by apply hash_put_hash_ne.
Qed.

(** C5. [pop] on a present key returns the decoded stored value and
    afterwards [contains] answers false; on an absent key it returns the
    default and every entry of the namespace stays as it was. *)
Theorem pop_present_absent
    (key : RedisKeyType) (default : option RedisValueType) (w : world) :
  ns ∉ locks w →
  (∀ t value, field self w key = Some t →
     _value_from_typestring t = Ok value →
     ∃ w', run (Cache.pop self key default true) w = Some (Ok (Some value), w')
           ∧ run (Cache.contains self key true) w' = Some (Ok false, w'))
  ∧ (field self w key = None →
     ∃ w', run (Cache.pop self key default true) w = Some (Ok default, w')
           ∧ hash w' ns = hash w ns).
Proof.
  intros Hfree. split.
  - intros t value Ht Hvalue. eexists. rewrite run_pop by auto.
    rewrite Ht. unfold decoded. rewrite Hvalue. split; [done|].
    rewrite run_contains by auto.
    by rewrite field_put_hash, lookup_delete_eq.
  - intros Habsent. eexists. rewrite run_pop by auto.
    rewrite Habsent. unfold decoded. split; [done|].
    rewrite hash_put_hash. by apply delete_id.
Qed.

End dictionary.

(** ** increment and decrement *)

Section counters.
Context {codec : TypeCodec}.
Variable self : Cache.RedisCache.

Local Abbreviation ns := (Cache.namespace self).

Lemma field_written key value w :
  field self (written self key value w) key = Some (_value_to_typestring value).
Proof. unfold written. by rewrite field_put_hash, lookup_insert_eq. Qed.

Lemma written_written key v1 v2 w :
  written self key v2 (written self key v1 w) = written self key v2 w.
Proof.
  unfold written. by rewrite put_hash_put_hash, hash_put_hash, insert_insert_eq.
Qed.

Lemma incremented_stored key amount w t value :
  field self w key = Some t →
  _value_from_typestring t = Ok value →
  incremented self amount key w =
  if isinstance_int value || isinstance_float value then
    match py_add value amount with
    | Ok sum => (Ok tt, written self key sum w)
    | Raise e => (Raise e, w)
    end
  else (Raise TypeError, w).
Proof. intros Ht Hvalue. unfold incremented, decoded. by rewrite Ht, Hvalue. Qed.

Lemma incremented_int key amount w t z :
  field self w key = Some t →
  _value_from_typestring t = Ok (VInt z) →
  incremented self (VInt amount) key w = (Ok tt, written self key (VInt (z + amount)) w).
Proof. intros Ht Hz. by rewrite (incremented_stored _ _ _ _ _ Ht Hz). Qed.

(** C2 (what the code does). A stored boolean passes
    [isinstance(value, int)]: [increment] does not raise, it adds the
    amount to 0 or 1 and overwrites the entry with the integer sum.  A
    stored string does fail with [TypeError], the world unchanged. *)
Theorem increment_stored_bool_or_string
    (key : RedisKeyType) (amount : Z) (t : string) (w : world) :
  ns ∉ locks w →
  field self w key = Some t →
  (∀ b : bool, _value_from_typestring t = Ok (VBool b) →
     run (Cache.increment self key (VInt amount) true) w
     = Some (Ok tt, written self key (VInt (Z.b2z b + amount)) w))
  ∧ (∀ s : string, _value_from_typestring t = Ok (VStr s) →
     run (Cache.increment self key (VInt amount) true) w = Some (Raise TypeError, w)).
Proof.
  intros Hfree Ht. split.
  - intros b Hb. rewrite run_increment by auto.
    by rewrite (incremented_stored _ _ _ _ _ Ht Hb).
  - intros s Hs. rewrite run_increment by auto.
    by rewrite (incremented_stored _ _ _ _ _ Ht Hs).
Qed.

(** C3 (amended). On an absent key [increment] raises [KeyError] and the
    world is unchanged.  On a key holding an integer or a float it writes
    back the Python sum of the stored number and the amount, whenever
    that sum is defined.  On a stored integer the two increments by 2 and
    by -5 leave exactly that integer minus 3. *)
Theorem increment_absent_or_adds {laws : TypeCodecLaws codec}
    (key : RedisKeyType) (amount : RedisValueType) (w : world) :
  ns ∉ locks w →
  (field self w key = None →
     run (Cache.increment self key amount true) w = Some (Raise KeyError, w))
  ∧ (∀ t value sum, field self w key = Some t →
     _value_from_typestring t = Ok value →
     isinstance_int value || isinstance_float value = true →
     py_add value amount = Ok sum →
     run (Cache.increment self key amount true) w = Some (Ok tt, written self key sum w))
  ∧ (∀ t z, field self w key = Some t →
     _value_from_typestring t = Ok (VInt z) →
     run (Cache.increment self key (VInt 2) true;;
          Cache.increment self key (VInt (-5)) true;;
          Cache.get self key None true) w
     = Some (Ok (Some (VInt (z - 3))), written self key (VInt (z - 3)) w)).
Proof.
  intros Hfree. split; [|split].
  - intros Habsent. rewrite run_increment by auto.
    unfold incremented. by rewrite Habsent.
  - intros t value sum Ht Hvalue Hnum Hsum. rewrite run_increment by auto.
    by rewrite (incremented_stored _ _ _ _ _ Ht Hvalue), Hnum, Hsum.
  - intros t z Ht Hz.
    rewrite run_bind, run_increment by auto.
    rewrite (incremented_int _ _ _ _ _ Ht Hz).
    rewrite run_bind, run_increment by auto.
    rewrite (incremented_int _ _ _ _ (z + 2) (field_written _ _ _))
      by apply value_round_trip.
    rewrite written_written, run_get by auto.
    replace (z + 2 + -5) with (z - 3) by lia.
    by rewrite field_written, decoded_encoded.
Qed.

(** C10 (amended). On a key holding an integer that converts to a float,
    [increment] by a float amount writes back the float sum: a subsequent
    [get] returns a float. *)
Theorem increment_int_by_float {laws : TypeCodecLaws codec}
    (key : RedisKeyType) (amount : float) (t : string) (z : Z) (fz : float)
    (w : world) :
  ns ∉ locks w →
  field self w key = Some t →
  _value_from_typestring t = Ok (VInt z) →
  float_of_int z = Ok fz →
  run (Cache.increment self key (VFloat amount) true;;
       Cache.get self key None true) w
  = Some (Ok (Some (VFloat (SFadd prec emax fz amount))),
          written self key (VFloat (SFadd prec emax fz amount)) w).
Proof.
  intros Hfree Ht Hz Hfz.
  rewrite run_bind, run_increment by auto.
  rewrite (incremented_stored _ _ _ _ _ Ht Hz).
  change (py_add (VInt z) (VFloat amount))
    with (match float_of_int z with
          | Ok f => Ok (VFloat (SFadd prec emax f amount))
          | Raise e => Raise e
          end).
  rewrite Hfz. change (isinstance_int (VInt z) || isinstance_float (VInt z)) with true.
  cbv iota beta. rewrite run_get by auto.
  by rewrite field_written, decoded_encoded.
Qed.

(** C7. [decrement(key, amount)] is [increment(key, -amount)]: the same
    coroutine, hence the same run; in particular [KeyError] on an absent
    key, [TypeError] on a stored string, and on a stored integer with an
    integer amount the difference written back. *)
Theorem decrement_is_increment_negated
    (key : RedisKeyType) (amount : number) (w : world) :
  ns ∉ locks w →
  Cache.decrement self key amount = decrement_spec self key amount
  ∧ run (Cache.decrement self key amount) w = run (decrement_spec self key amount) w
  ∧ (field self w key = None →
     run (Cache.decrement self key amount) w = Some (Raise KeyError, w))
  ∧ (∀ t s, field self w key = Some t →
     _value_from_typestring t = Ok (VStr s) →
     run (Cache.decrement self key amount) w = Some (Raise TypeError, w))
  ∧ (∀ t z a, amount = NInt a →
     field self w key = Some t →
     _value_from_typestring t = Ok (VInt z) →
     run (Cache.decrement self key amount) w = Some (Ok tt, written self key (VInt (z - a)) w)).
Proof.
  intros Hfree.
  assert (Cache.decrement self key amount = decrement_spec self key amount) as Heq
    by by destruct amount.
  split; [done|]. split; [by rewrite Heq|].
  rewrite Heq. unfold decrement_spec. rewrite run_increment by auto.
  split; [|split].
  - intros Habsent. unfold incremented. by rewrite Habsent.
  - intros t s Ht Hs. by rewrite (incremented_stored _ _ _ _ _ Ht Hs).
  - intros t z a -> Ht Hz. by rewrite (incremented_stored _ _ _ _ _ Ht Hz).
Qed.

End counters.

(** ** update, items, to_dict *)

Section bulk.
Context {codec : TypeCodec}.
Variable self : Cache.RedisCache.

Local Abbreviation ns := (Cache.namespace self).
Local Abbreviation enc_pair :=
  (λ kv : RedisKeyType * RedisValueType,
     (_key_to_typestring kv.1, _value_to_typestring kv.2)).
Local Abbreviation put_pair :=
  (λ (h : gmap string string) (kv : RedisKeyType * RedisValueType),
     <[_key_to_typestring kv.1:=_value_to_typestring kv.2]> h).

Lemma foldl_insert_union {K A} `{Countable K} (l : list (K * A)) (h : gmap K A) :
  foldl (λ d kv, <[kv.1:=kv.2]> d) h l = list_to_map (reverse l) ∪ h.
Proof.
  revert h. induction l as [|[k a] l IH]; intros h; simpl.
  - by rewrite (left_id_L ∅ (∪)).
  - rewrite IH, reverse_cons, list_to_map_app. simpl.
    rewrite insert_empty, <- (assoc_L (∪)).
    by rewrite <- insert_union_singleton_l.
Qed.

Lemma run_items b w :
  b = false ∨ ns ∉ locks w →
  run (Cache.items self b) w =
  match Cache._dict_from_typestring (hash w ns) with
  | Ok d => Some (Ok (length (heap w)), with_heap (heap w ++ [d]) w)
  | Raise e => Some (Raise e, w)
  end.
Proof.
  assert (∀ w, run (Cache.items self false) w
               = match Cache._dict_from_typestring (hash w ns) with
                 | Ok d => Some (Ok (length (heap w)), with_heap (heap w ++ [d]) w)
                 | Raise e => Some (Raise e, w)
                 end) as Hbody.
  { intros w'. unfold Cache.items, Cache.namespace_lock.
    rewrite run_bind, run_call. simpl exec. cbv iota beta.
    rewrite run_bind, run_done.
    by destruct (Cache._dict_from_typestring (hash w' ns)). }
  destruct b; [intros [?|Hfree]; [done|]|done].
  unfold Cache.items in *. rewrite run_namespace_lock; [apply Hbody| |done].
  solve_no_lock.
Qed.

Lemma no_lock_items : no_lock_cmds (Cache.items self false).
Proof. unfold Cache.items. solve_no_lock. Qed.

Lemma run_to_dict w :
  ns ∉ locks w →
  run (Cache.to_dict self true) w =
  match Cache._dict_from_typestring (hash w ns) with
  | Ok d => Some (Ok (S (length (heap w))), with_heap (heap w ++ [d; d]) w)
  | Raise e => Some (Raise e, w)
  end.
Proof.
  intros Hfree. unfold Cache.to_dict.
  rewrite run_namespace_lock; [| pose proof no_lock_items; solve_no_lock | done].
  rewrite run_bind, run_items by auto.
  destruct (Cache._dict_from_typestring (hash w ns)) as [d|e]; [|done].
  rewrite run_bind, run_call. simpl exec.
  rewrite lookup_app_r, Nat.sub_diag by done. simpl.
  rewrite length_app. simpl. rewrite Nat.add_1_r.
  by rewrite <- (assoc_L (++)).
Qed.



Context {laws : TypeCodecLaws codec}.

Local Instance key_to_typestring_Inj : Inj (=) (=) _key_to_typestring.
Proof. intros k1 k2. apply key_to_typestring_inj. Qed.





Lemma lookup_dict_to_typestring (items : pydict) j y :
  Cache._dict_to_typestring items !! j = Some y
  ↔ ∃ k v, j = _key_to_typestring k ∧ y = _value_to_typestring v
           ∧ items !! k = Some v.
Proof.
  unfold Cache._dict_to_typestring. rewrite lookup_kmap_Some by apply _.
  split.
  - intros (k & -> & (v & <- & Hv)%lookup_fmap_Some). by exists k, v.
  - intros (k & v & -> & -> & Hv). exists k. split; [done|].
    rewrite lookup_fmap, Hv. done.
Qed.

Lemma decode_items_image (l : list (string * string)) :
  (∀ p, p ∈ l → ∃ kv, p = enc_pair kv) →
  ∃ l0, l = enc_pair <$> l0 ∧ Cache.decode_items l = Ok l0.
Proof.
  induction l as [|[j y] l IH]; intros Himg.
  - by exists [].
  - destruct (Himg (j, y)) as [[k v] [= -> ->]]; [left|].
    destruct IH as (l0 & -> & Hl0); [intros p Hp; apply Himg; by right|].
    exists ((k, v) :: l0). split; [done|]. simpl in *.
    by rewrite key_round_trip, value_round_trip, Hl0.
Qed.

Lemma dict_round_trip (items : pydict) :
  Cache._dict_from_typestring (Cache._dict_to_typestring items) = Ok items.
Proof.
  unfold Cache._dict_from_typestring.
  set (h := Cache._dict_to_typestring items).
  destruct (decode_items_image (map_to_list h)) as (l0 & Hl0 & ->).
  { intros [j y] (k & v & -> & -> & _)%elem_of_map_to_list%lookup_dict_to_typestring.
    by exists (k, v). }
  f_equal. rewrite foldl_insert_union, (right_id_L ∅ (∪)).
  assert (NoDup (reverse l0).*1) as Hnodup.
  { rewrite reverse_Permutation.
    apply (NoDup_fmap_1 _key_to_typestring).
    pose proof (NoDup_fst_map_to_list h) as Hh. rewrite Hl0 in Hh.
    revert Hh. by rewrite <- !list_fmap_compose. }
  apply map_eq. intros k. apply option_eq. intros v.
  rewrite <- elem_of_list_to_map by done. rewrite elem_of_reverse.
  transitivity (enc_pair (k, v) ∈ map_to_list h).
  - rewrite Hl0. split; [apply (list_elem_of_fmap_2 enc_pair)|].
    intros ([k' v'] & [= Hk Hv] & Hin)%list_elem_of_fmap_1.
    apply key_to_typestring_inj in Hk.
    apply value_to_typestring_inj in Hv. by subst.
  - rewrite elem_of_map_to_list. unfold h.
    rewrite lookup_dict_to_typestring. split.
    + intros (k' & v' & Hk & Hv & Hin). simpl in *.
      apply key_to_typestring_inj in Hk.
      apply value_to_typestring_inj in Hv. by subst.
    + intros Hin. by exists k, v.
Qed.

End bulk.

Section update_items.
Context {codec : TypeCodec} {laws : TypeCodecLaws codec}.
Variable self : Cache.RedisCache.

Local Abbreviation ns := (Cache.namespace self).


End update_items.

(** ** Two increments scheduled together *)

Lemma sched_turn_rtc {A} (c : list (prog A) * world) (i : nat) :
  rtc sched_step c (sched_turn c i).
Proof.
  destruct c as [ts w]. unfold sched_turn. simpl.
  destruct (ts !! i) as [p|] eqn:Hp; [|done].
  destruct (task_step p w) as [[p' w']|] eqn:Hstep; [|done].
  apply rtc_once. by econstructor.
Qed.

Lemma sched_run_rtc {A} (schedule : list nat) (c : list (prog A) * world) :
  rtc sched_step c (sched_run schedule c).
Proof.
  revert c. induction schedule as [|i schedule IH]; intros c; [done|].
  etrans; [apply (sched_turn_rtc c i)|apply IH].
Qed.

Section two_increments.
Context {codec : TypeCodec}.
Variable self : Cache.RedisCache.
Variable key : RedisKeyType.

Local Abbreviation ns := (Cache.namespace self).

Lemma step_at_start sum w :
  task_step (phase_prog self key AtStart sum) w =
  if decide (ns ∈ locks w) then None
  else Some (phase_prog self key Locked sum, with_locks ({[ns]} ∪ locks w) w).
Proof. simpl. by case_decide. Qed.

Lemma step_locked sum' t value sum w :
  field self w key = Some t →
  _value_from_typestring t = Ok value →
  isinstance_int value || isinstance_float value = true →
  py_add value (VInt 1) = Ok sum →
  task_step (phase_prog self key Locked sum') w = Some (phase_prog self key Read sum, w).
Proof.
  unfold field. intros Ht Hvalue Hnum Hsum. simpl. rewrite Ht. simpl.
  rewrite Hvalue. simpl. rewrite Hnum. unfold mbind, prog_bind. simpl.
  by rewrite Hsum.
Qed.

Lemma step_read sum w :
  task_step (phase_prog self key Read sum) w
  = Some (phase_prog self key Written sum, written self key sum w).
Proof. done. Qed.

Lemma step_written sum w :
  task_step (phase_prog self key Written sum) w
  = Some (phase_prog self key Finished sum, with_locks (locks w ∖ {[ns]}) w).
Proof. done. Qed.

End two_increments.

Lemma py_add_int_numeric value amount sum :
  isinstance_int value || isinstance_float value = true →
  py_add value (VInt amount) = Ok sum →
  isinstance_int sum || isinstance_float sum = true.
Proof.
  destruct value as [s|z|f|b]; try done.
  - by intros _ [= <-].
  - unfold py_add; simpl. destruct (float_of_int amount); [|done]. by intros _ [= <-].
  - by intros _ [= <-].
Qed.

Section serialised.
Context {codec : TypeCodec} {laws : TypeCodecLaws codec}.
Variable self : Cache.RedisCache.
Variable key : RedisKeyType.
(** The field before, its value, and the value after one and after two
    additions of 1. *)
Variables (t : string) (v0 v1 v2 : RedisValueType).
Hypothesis decode_t : _value_from_typestring t = Ok v0.
Hypothesis numeric_v0 : isinstance_int v0 || isinstance_float v0 = true.
Hypothesis add_v0 : py_add v0 (VInt 1) = Ok v1.
Hypothesis add_v1 : py_add v1 (VInt 1) = Ok v2.

Local Abbreviation ns := (Cache.namespace self).
Local Abbreviation inc := (Cache.increment self key (VInt 1) true).

Local Abbreviation val := (value_after v0 v1 v2).
Local Abbreviation stored := (field_after t v0 v1 v2).
Local Abbreviation inv_at := (inv_at self key t v0 v1 v2).

Lemma decode_stored n : _value_from_typestring (stored n) = Ok (val n).
Proof. destruct n; [done|]. apply value_round_trip. Qed.

Lemma numeric_val n : (n < 2)%nat → isinstance_int (val n) || isinstance_float (val n) = true.
Proof.
  destruct n as [|[|n]]; [done| |lia]. intros _.
  by apply (py_add_int_numeric v0 1).
Qed.

Lemma add_val n : (n < 2)%nat → py_add (val n) (VInt 1) = Ok (val (S n)).
Proof. destruct n as [|[|n]]; [done..|lia]. Qed.

Lemma phase_prog_sum ph s s' :
  ph ≠ Read → phase_prog self key ph s = phase_prog self key ph s'.
Proof. by destruct ph. Qed.

(** One step of one task, seen from the invariant. *)
Lemma phase_step ph other w p' w' :
  critical ph && critical other = false →
  (ns ∈ locks w ↔ critical ph || critical other = true) →
  field self w key = Some (stored (wrote ph + wrote other)) →
  task_step (phase_prog self key ph (val (S (wrote ph + wrote other)))) w
  = Some (p', w') →
  ∃ ph', p' = phase_prog self key ph' (val (S (wrote ph' + wrote other)))
         ∧ remaining ph = S (remaining ph')
         ∧ critical other = false
         ∧ critical ph' && critical other = false
         ∧ (ns ∈ locks w' ↔ critical ph' || critical other = true)
         ∧ field self w' key = Some (stored (wrote ph' + wrote other)).
Proof.
  intros Hexcl Hlock Hfield. destruct ph; cbn [critical wrote andb orb] in *.
  - rewrite step_at_start. case_decide as Hheld; [done|]. intros [= <- <-].
    assert (critical other = false) as Hother
      by (destruct (critical other); [by destruct Hheld; apply Hlock|done]).
    exists Locked. rewrite Hother. split_and!; try done.
    split; [done|]. intros _. simpl.
    apply elem_of_union. left. by apply elem_of_singleton.
  - erewrite step_locked;
      [|done|apply decode_stored|apply numeric_val|apply add_val];
      [|destruct other; simpl in *; (done || lia)..].
    intros [= <- <-]. exists Read. by rewrite Hexcl.
  - rewrite step_read. intros [= <- <-]. exists Written.
    rewrite Hexcl. split_and!; try done.
    by rewrite field_written.
  - rewrite step_written. intros [= <- <-]. exists Finished.
    rewrite Hexcl. split_and!; try done.
    simpl. split; [|done].
    intros [_ Hns]%elem_of_difference. destruct Hns. by apply elem_of_singleton.
  - done.
Qed.

Lemma phase_can_step ph other w :
  (ns ∈ locks w ↔ critical ph || critical other = true) →
  field self w key = Some (stored (wrote ph + wrote other)) →
  ph ≠ Finished →
  critical ph = true ∨ critical other = false →
  is_Some (task_step (phase_prog self key ph (val (S (wrote ph + wrote other)))) w).
Proof.
  intros Hlock Hfield Hph Hturn. destruct ph; cbn [critical wrote orb] in *.
  - rewrite step_at_start. destruct Hturn as [?|Hother]; [done|].
    rewrite Hother in Hlock. rewrite decide_False; [done|].
    intros Hheld. by apply Hlock in Hheld.
  - erewrite step_locked;
      [done|done|apply decode_stored|apply numeric_val|apply add_val];
      destruct other; simpl; lia.
  - by rewrite step_read.
  - by rewrite step_written.
  - done.
Qed.

Lemma inv_at_sym ph1 ph2 ts1 ts2 w :
  inv_at ph1 ph2 ([ts1; ts2], w) → inv_at ph2 ph1 ([ts2; ts1], w).
Proof.
  unfold inv_at. simpl. rewrite (Nat.add_comm (wrote ph1)).
  rewrite (andb_comm (critical ph1)), (orb_comm (critical ph1)).
  by intros ([= -> ->] & ? & ? & ?).
Qed.

(** The invariant is kept by every step, and every step is one step less
    to go. *)
Lemma inv_at_step ph1 ph2 c c' :
  inv_at ph1 ph2 c → sched_step c c' →
  ∃ ph1' ph2', inv_at ph1' ph2' c'
    ∧ (remaining ph1 + remaining ph2 = S (remaining ph1' + remaining ph2'))%nat.
Proof.
  intros Hinv Hstep. destruct Hstep as [i ts p p' w w' Hp Hstep].
  pose proof Hinv as (Hts & Hexcl & Hlock & Hfield). cbn [fst snd] in *. subst ts.
  destruct i as [|[|i]]; [| |done]; simpl in Hp; injection Hp as <-.
  - destruct (phase_step _ _ _ _ _ Hexcl Hlock Hfield Hstep)
      as (ph' & -> & Hrem & Hother & Hexcl' & Hlock' & Hfield').
    exists ph', ph2. split; [|lia].
    split_and!; try done. simpl. do 2 f_equal.
    apply phase_prog_sum. by intros ->.
  - apply inv_at_sym in Hinv as (_ & Hexcl2 & Hlock2 & Hfield2). cbn [fst snd] in *.
    rewrite (Nat.add_comm (wrote ph1)) in Hstep.
    destruct (phase_step _ _ _ _ _ Hexcl2 Hlock2 Hfield2 Hstep)
      as (ph' & -> & Hrem & Hother & Hexcl' & Hlock' & Hfield').
    exists ph1, ph'. split; [|lia].
    apply (inv_at_sym ph' ph1). split_and!; try done. simpl. do 2 f_equal.
    apply phase_prog_sum. by intros ->.
Qed.

Lemma inv_at_finished ph1 ph2 c :
  inv_at ph1 ph2 c → finished c.1 → ph1 = Finished ∧ ph2 = Finished.
Proof.
  intros (-> & _) Hfin.
  apply Forall_cons in Hfin as [[r1 Hr1] [[r2 Hr2] _]%Forall_cons].
  by destruct ph1, ph2.
Qed.

Lemma inv_at_end c :
  inv_at Finished Finished c →
  c.1 = [Done (Ok tt); Done (Ok tt)]
  ∧ field self c.2 key = Some (_value_to_typestring v2)
  ∧ ns ∉ locks c.2.
Proof.
  intros (Hts & _ & Hlock & Hfield). split_and!; [done..|].
  intros Hheld. by apply Hlock in Hheld.
Qed.

(** No deadlock: the two tasks always reach the end. *)
Lemma inv_at_terminates ph1 ph2 c :
  inv_at ph1 ph2 c →
  ∃ c', rtc sched_step c c' ∧ inv_at Finished Finished c'.
Proof.
  remember (remaining ph1 + remaining ph2)%nat as m eqn:Hm.
  revert ph1 ph2 c Hm. induction m as [|m IH]; intros ph1 ph2 c Hm Hinv.
  - exists c. split; [done|]. by destruct ph1, ph2.
  - assert (∃ c', sched_step c c') as [c' Hstep].
    { destruct c as [ts w]. pose proof Hinv as (Hts & Hexcl & Hlock & Hfield).
      cbn [fst snd] in *. subst ts.
      destruct (decide (ph1 ≠ Finished
                        ∧ (critical ph1 = true ∨ critical ph2 = false)))
        as [[Hph1 Hturn]|Hnot].
      - destruct (phase_can_step ph1 ph2 w Hlock Hfield Hph1 Hturn) as [[p' w'] Hp].
        eexists. by eapply (sched_pick 0).
      - apply inv_at_sym in Hinv as (_ & Hexcl2 & Hlock2 & Hfield2). cbn [fst snd] in *.
        assert (ph2 ≠ Finished ∧ (critical ph2 = true ∨ critical ph1 = false))
          as [Hph2 Hturn].
        { clear -Hnot Hm.
          destruct ph1, ph2; simpl in *;
            try (by split; [|auto]);
            try (exfalso; apply Hnot; by split; [|auto]); lia. }
        destruct (phase_can_step ph2 ph1 w Hlock2 Hfield2 Hph2 Hturn) as [[p' w'] Hp].
        rewrite (Nat.add_comm (wrote ph2)) in Hp.
        eexists. by eapply (sched_pick 1). }
    destruct (inv_at_step _ _ _ _ Hinv Hstep) as (ph1' & ph2' & Hinv' & Hrem).
    destruct (IH ph1' ph2' c') as (c'' & Hsteps & Hend); [lia|done|].
    exists c''. split; [by eapply rtc_l|done].
Qed.

(** Whatever the schedule, the two increments act as one after the other. *)
Lemma increments_serialise w c :
  ns ∉ locks w →
  field self w key = Some t →
  rtc sched_step ([inc; inc], w) c →
  (finished c.1 →
     c.1 = [Done (Ok tt); Done (Ok tt)]
     ∧ field self c.2 key = Some (_value_to_typestring v2)
     ∧ ns ∉ locks c.2)
  ∧ ∃ c', rtc sched_step c c' ∧ finished c'.1.
Proof.
  intros Hfree Hfield Hsteps.
  assert (∃ ph1 ph2, inv_at ph1 ph2 c) as (ph1 & ph2 & Hinv).
  { revert c Hsteps. apply rtc_ind_r.
    - exists AtStart, AtStart. by split_and!.
    - intros c1 c2 _ Hstep (ph1 & ph2 & Hinv).
      destruct (inv_at_step _ _ _ _ Hinv Hstep) as (ph1' & ph2' & Hinv' & _).
      by exists ph1', ph2'. }
  split.
  - intros Hfin. destruct (inv_at_finished _ _ _ Hinv Hfin) as [-> ->].
    by apply inv_at_end.
  - destruct (inv_at_terminates _ _ _ Hinv) as (c' & Hsteps' & Hend).
    exists c'. split; [done|]. apply inv_at_end in Hend as (-> & _).
    repeat constructor; by eexists.
Qed.

End serialised.

Section concurrency.
Context {codec : TypeCodec} {laws : TypeCodecLaws codec}.
Variable self : Cache.RedisCache.

Local Abbreviation ns := (Cache.namespace self).

(** C9 (amended). Two [increment(key, 1)] tasks on a key holding a numeric
    value, scheduled in any way: when both are done both have returned
    normally and the key holds what the two increments leave when run one
    after the other, the value plus 1 plus 1 in Python's arithmetic; and
    from wherever the schedule has come, both can still be brought to the
    end.  On a stored integer that is exactly 2 more than before. *)
Theorem concurrent_increments_serialise
    (key : RedisKeyType) (t : string) (v0 v1 v2 : RedisValueType)
    (w : world) (c : list (prog unit) * world) :
  ns ∉ locks w →
  field self w key = Some t →
  _value_from_typestring t = Ok v0 →
  isinstance_int v0 || isinstance_float v0 = true →
  py_add v0 (VInt 1) = Ok v1 →
  py_add v1 (VInt 1) = Ok v2 →
  rtc sched_step ([Cache.increment self key (VInt 1) true;
                   Cache.increment self key (VInt 1) true], w) c →
  (finished c.1 →
     c.1 = [Done (Ok tt); Done (Ok tt)]
     ∧ decoded None (field self c.2 key) = Ok (Some v2))
  ∧ (∃ c', rtc sched_step c c' ∧ finished c'.1)
  ∧ (∀ z, v0 = VInt z → v2 = VInt (z + 2)).
Proof.
  intros Hfree Hfield Ht Hnum Hv1 Hv2 Hsteps.
  destruct (increments_serialise self key t v0 v1 v2 Ht Hnum Hv1 Hv2 w c)
    as [Hend Hterm]; [done..|].
  split_and!; [|done|].
  - intros Hfin. destruct (Hend Hfin) as (Hts & Hstored & _).
    split; [done|]. by rewrite Hstored, decoded_encoded.
  - intros z ->. injection Hv1 as <-. injection Hv2 as <-. f_equal. lia.
Qed.

End concurrency.

(** * The properties on the tagged codec *)

Section examples.
#[local] Existing Instance TaggedCodec.codec.
#[local] Existing Instance tagged_codec_laws.

Local Abbreviation cache := some_cog_cache.
Local Abbreviation key := (KStr "key").

Example floats_valid :
  Forall (λ f, valid_binary prec emax f = true)
    [two_53; two_53_plus_2; two_54; two_54_plus_4; one_half].
Proof. repeat constructor. Qed.

Example floats_of_int :
  float_of_int (2 ^ 53) = Ok two_53 ∧ float_of_int (2 ^ 53 + 2) = Ok two_53_plus_2
  ∧ float_of_int (2 ^ 54) = Ok two_54 ∧ float_of_int (2 ^ 54 + 4) = Ok two_54_plus_4.
Proof. by vm_compute. Qed.

Lemma set_then_get_witness :
  (Cache.namespace cache ∉ locks fresh)
  ∧ run (Cache.set cache key (VStr "value") true;;
         Cache.get cache key None true) fresh
    = Some (Ok (Some (VStr "value")), written cache key (VStr "value") fresh).
Proof.
  split; [apply fresh_unlocked|].
  apply (set_then_get cache key (VStr "value") None fresh), fresh_unlocked.
Defined.

Lemma get_absent_returns_default_witness :
  (Cache.namespace cache ∉ locks fresh)
  ∧ field cache fresh key = None
  ∧ run (Cache.get cache key (Some (VInt 7)) true) fresh = Some (Ok (Some (VInt 7)), fresh)
  ∧ run (Cache.get cache key None true) fresh = Some (Ok None, fresh).
Proof.
  split; [apply fresh_unlocked|]. split; [reflexivity|].
  apply (get_absent_returns_default cache key (Some (VInt 7)) fresh);
    [apply fresh_unlocked|reflexivity].
Defined.

Lemma delete_returns_removed_count_witness :
  (Cache.namespace cache ∉ locks (holding key (VStr "value")))
  ∧ ∃ (removed : Z) (w' : world),
      run (Cache.delete cache key true) (holding key (VStr "value"))
      = Some (Ok (Some (VInt removed)), w')
      ∧ (is_Some (field cache (holding key (VStr "value")) key) → removed = 1)
      ∧ (field cache (holding key (VStr "value")) key = None →
         removed = 0 ∧ ∀ ns', hash w' ns' = hash (holding key (VStr "value")) ns').
Proof.
  split; [apply holding_unlocked|].
  apply (delete_returns_removed_count cache key), holding_unlocked.
Defined.

(** [delete("key")] on a cache holding "key" returns the integer 1, and on
    an empty cache the integer 0; neither is [None]. *)
Example delete_returns_one_then_zero :
  fst <$> run (Cache.delete cache key true) (holding key (VStr "value"))
  = Some (Ok (Some (VInt 1)))
  ∧ fst <$> run (Cache.delete cache key true) fresh = Some (Ok (Some (VInt 0))).
Proof. by vm_compute. Qed.

Lemma pop_present_absent_witness :
  (Cache.namespace cache ∉ locks (holding key (VInt 3)))
  ∧ field cache (holding key (VInt 3)) key = Some "INT:3"
  ∧ _value_from_typestring "INT:3" = Ok (VInt 3)
  ∧ ∃ w', run (Cache.pop cache key None true) (holding key (VInt 3))
          = Some (Ok (Some (VInt 3)), w')
          ∧ run (Cache.contains cache key true) w' = Some (Ok false, w').
Proof.
  split; [apply holding_unlocked|]. split; [by vm_compute|]. split; [by vm_compute|].
  destruct (pop_present_absent cache key None (holding key (VInt 3))
              (holding_unlocked _ _ _)) as [Hpresent _].
  apply (Hpresent "INT:3" (VInt 3)); by vm_compute.
Defined.

(** A stored [True] incremented by 1 reads back as the integer 2; no
    [TypeError]. *)
Example increment_bool_becomes_int :
  fst <$> run (Cache.set cache key (VBool true) true;;
               Cache.increment cache key (VInt 1) true;;
               Cache.get cache key None true) fresh
  = Some (Ok (Some (VInt 2))).
Proof. by vm_compute. Qed.

Lemma increment_stored_bool_or_string_witness :
  (Cache.namespace cache ∉ locks (holding key (VBool true)))
  ∧ field cache (holding key (VBool true)) key = Some "BOOL:1"
  ∧ _value_from_typestring "BOOL:1" = Ok (VBool true)
  ∧ run (Cache.increment cache key (VInt 1) true) (holding key (VBool true))
    = Some (Ok tt, written cache key (VInt 2) (holding key (VBool true))).
Proof.
  split; [apply holding_unlocked|]. split; [by vm_compute|]. split; [by vm_compute|].
  assert (field cache (holding key (VBool true)) key = Some "BOOL:1") as Hfield
    by by vm_compute.
  destruct (increment_stored_bool_or_string cache key 1 "BOOL:1"
              (holding key (VBool true)) (holding_unlocked _ _ _) Hfield)
    as [Hbool _].
  apply (Hbool true). by vm_compute.
Defined.

Lemma increment_absent_or_adds_witness :
  (Cache.namespace cache ∉ locks (holding key (VInt 10)))
  ∧ field cache (holding key (VInt 10)) (KStr "missing") = None
  ∧ field cache (holding key (VInt 10)) key = Some "INT:10"
  ∧ _value_from_typestring "INT:10" = Ok (VInt 10)
  ∧ run (Cache.increment cache (KStr "missing") (VInt 1) true) (holding key (VInt 10))
    = Some (Raise KeyError, holding key (VInt 10))
  ∧ run (Cache.increment cache key (VInt 2) true;;
         Cache.increment cache key (VInt (-5)) true;;
         Cache.get cache key None true) (holding key (VInt 10))
    = Some (Ok (Some (VInt 7)), written cache key (VInt 7) (holding key (VInt 10))).
Proof.
  split; [apply holding_unlocked|].
  split; [by vm_compute|]. split; [by vm_compute|]. split; [by vm_compute|].
  split.
  - apply (increment_absent_or_adds cache (KStr "missing") (VInt 1)
             (holding key (VInt 10)) (holding_unlocked _ _ _)).
    by vm_compute.
  - destruct (increment_absent_or_adds cache key (VInt 1)
                (holding key (VInt 10)) (holding_unlocked _ _ _))
      as (_ & _ & Hnet).
    apply (Hnet "INT:10" 10); by vm_compute.
Defined.

(** C3 as stated fails on a float: 2^54 + 4 incremented by 2 and then by
    -5 is 2^54 + 4 again, while 3 less is 2^54. *)
Lemma increment_float_not_three_less :
  fst <$> run (Cache.increment cache key (VInt 2) true;;
               Cache.increment cache key (VInt (-5)) true;;
               Cache.get cache key None true) (holding key (VFloat two_54_plus_4))
  = Some (Ok (Some (VFloat two_54_plus_4)))
  ∧ py_add (VFloat two_54_plus_4) (VInt (-3)) = Ok (VFloat two_54)
  ∧ VFloat two_54_plus_4 ≠ VFloat two_54.
Proof. split; [by vm_compute|]. split; [by vm_compute|]. discriminate. Qed.

Lemma increment_int_by_float_witness :
  (Cache.namespace cache ∉ locks (holding key (VInt 1)))
  ∧ field cache (holding key (VInt 1)) key = Some "INT:1"
  ∧ _value_from_typestring "INT:1" = Ok (VInt 1)
  ∧ float_of_int 1 = Ok (S754_finite false 4503599627370496 (-52))
  ∧ fst <$> run (Cache.increment cache key (VFloat one_half) true;;
                 Cache.get cache key None true) (holding key (VInt 1))
    = Some (Ok (Some (VFloat (S754_finite false 6755399441055744 (-52))))).
Proof.
  split; [apply holding_unlocked|].
  split; [by vm_compute|]. split; [by vm_compute|]. split; [by vm_compute|].
  rewrite (increment_int_by_float cache key one_half "INT:1" 1
             (S754_finite false 4503599627370496 (-52)) (holding key (VInt 1))
             (holding_unlocked _ _ _));
    by vm_compute.
Defined.

(** C10 as stated fails on an integer too large for a float: 2^1024
    incremented by 0.5 raises [OverflowError], nothing is written, and
    [get] still returns the integer. *)
Lemma increment_huge_int_by_float_raises :
  fst <$> run (Cache.increment cache key (VFloat one_half) true)
              (holding key (VInt (2 ^ 1024)))
  = Some (Raise OverflowError)
  ∧ fst <$> run (Cache.increment cache key (VFloat one_half) true;;
                 Cache.get cache key None true) (holding key (VInt (2 ^ 1024)))
    = Some (Raise OverflowError)
  ∧ fst <$> run (Cache.get cache key None true) (holding key (VInt (2 ^ 1024)))
    = Some (Ok (Some (VInt (2 ^ 1024)))).
Proof. split; [by vm_compute|]. split; by vm_compute. Qed.

Lemma decrement_is_increment_negated_witness :
  (Cache.namespace cache ∉ locks (holding key (VInt 10)))
  ∧ Cache.decrement cache key (NInt 4) = decrement_spec cache key (NInt 4)
  ∧ run (Cache.decrement cache key (NInt 4)) (holding key (VInt 10))
    = run (decrement_spec cache key (NInt 4)) (holding key (VInt 10)).
Proof.
  split; [apply holding_unlocked|].
  destruct (decrement_is_increment_negated cache key (NInt 4)
              (holding key (VInt 10)) (holding_unlocked _ _ _))
    as (Hprog & Hrun & _).
  by split.
Defined.



Lemma concurrent_increments_serialise_witness :
  let c := sched_run interleaved (two_tasks, holding key (VInt 5)) in
  (Cache.namespace cache ∉ locks (holding key (VInt 5)))
  ∧ field cache (holding key (VInt 5)) key = Some "INT:5"
  ∧ _value_from_typestring "INT:5" = Ok (VInt 5)
  ∧ rtc sched_step (two_tasks, holding key (VInt 5)) c
  ∧ finished c.1
  ∧ c.1 = [Done (Ok tt); Done (Ok tt)]
  ∧ decoded None (field cache c.2 key) = Ok (Some (VInt 7)).
Proof.
  intros c. split; [apply holding_unlocked|].
  split; [by vm_compute|]. split; [by vm_compute|].
  split; [apply sched_run_rtc|].
  assert (finished c.1) as Hfin by (vm_compute; repeat constructor; by eexists).
  split; [done|].
  assert (field cache (holding key (VInt 5)) key = Some "INT:5") as Hfield
    by by vm_compute.
  assert (_value_from_typestring "INT:5" = Ok (VInt 5)) as Hdecode
    by by vm_compute.
  destruct (concurrent_increments_serialise cache key "INT:5"
              (VInt 5) (VInt 6) (VInt 7) (holding key (VInt 5)) c
              (holding_unlocked _ _ _) Hfield Hdecode eq_refl eq_refl eq_refl
              (sched_run_rtc _ _))
    as (Hend & _).
  by apply Hend.
Defined.

(** C9 as stated fails on a float: 2^53 incremented by 1 twice, here one
    task after the other, is 2^53 again, not 2^53 + 2. *)
Lemma concurrent_float_increments_not_two_greater :
  let c := sched_run [0; 0; 0; 0; 1; 1; 1; 1]%nat (two_tasks, holding key (VFloat two_53)) in
  rtc sched_step (two_tasks, holding key (VFloat two_53)) c
  ∧ finished c.1
  ∧ decoded None (field cache c.2 key) = Ok (Some (VFloat two_53))
  ∧ py_add (VFloat two_53) (VInt 2) = Ok (VFloat two_53_plus_2)
  ∧ VFloat two_53 ≠ VFloat two_53_plus_2.
Proof.
  intros c. split; [apply sched_run_rtc|].
  split; [vm_compute; repeat constructor; by eexists|].
  split; [by vm_compute|]. split; [by vm_compute|]. discriminate.
Qed.

(** Without the lock the update can be lost: both tasks read 5 and both
    write 6. *)
Example unlocked_increments_lose_update :
  let c := sched_run [0; 1; 0; 1]%nat
             ([Cache.increment cache key (VInt 1) false;
               Cache.increment cache key (VInt 1) false], holding key (VInt 5)) in
  c.1 = [Done (Ok tt); Done (Ok tt)]
  ∧ decoded None (field cache c.2 key) = Ok (Some (VInt 6)).
Proof. by vm_compute. Qed.

End examples.

(** * More of the methods *)

(** ** contains, length, clear and the calls as a whole *)

Section more_methods.
Context {codec : TypeCodec}.
Variable self : Cache.RedisCache.

Local Abbreviation ns := (Cache.namespace self).

Lemma run_length b w :
  b = false ∨ ns ∉ locks w →
  run (Cache.length self b) w = Some (Ok (Z.of_nat (size (hash w ns))), w).
Proof.
  unfold Cache.length. destruct b; [intros [?|Hfree]; [done|]|done].
  by rewrite run_namespace_lock.
Qed.

Lemma run_clear b w :
  b = false ∨ ns ∉ locks w →
  run (Cache.clear self b) w = Some (Ok tt, cleared self w).
Proof.
  unfold Cache.clear. destruct b; [intros [?|Hfree]; [done|]|done].
  by rewrite run_namespace_lock.
Qed.

Lemma run_to_dict_body w :
  run (Cache.to_dict self false) w =
  match Cache._dict_from_typestring (hash w ns) with
  | Ok d => Some (Ok (S (length (heap w))), with_heap (heap w ++ [d; d]) w)
  | Raise e => Some (Raise e, w)
  end.
Proof.
  unfold Cache.to_dict, Cache.namespace_lock.
  rewrite run_bind, run_items by auto.
  destruct (Cache._dict_from_typestring (hash w ns)) as [d|e]; [|done].
  rewrite run_bind, run_call. simpl exec.
  rewrite lookup_app_r, Nat.sub_diag by done. simpl.
  rewrite length_app. simpl. rewrite Nat.add_1_r.
  by rewrite <- (assoc_L (++)).
Qed.

Lemma run_locked_held {A} (method : prog A) w :
  ns ∈ locks w → run (Cache.namespace_lock self method true) w = None.
Proof.
  intros Hheld. unfold Cache.namespace_lock. rewrite run_bind, run_call. simpl.
  by rewrite decide_True.
Qed.

Lemma hash_cleared w : hash (cleared self w) ns = ∅.
Proof. unfold hash, cleared; simpl. by rewrite lookup_delete_eq. Qed.

Lemma hash_cleared_ne ns' w : ns ≠ ns' → hash (cleared self w) ns' = hash w ns'.
Proof. intros Hne. unfold hash, cleared; simpl. by rewrite lookup_delete_ne. Qed.

(** Every call ends, with the locks as they were, the other namespaces as
    they were, the dictionaries handed out before still in place, and, when
    it raises, with nothing changed at all. *)
Lemma api_call_run {A} (p : prog A) b w :
  api_call self b p →
  b = false ∨ ns ∉ locks w →
  ∃ r w', run p w = Some (r, w')
    ∧ locks w' = locks w
    ∧ (∀ ns', ns ≠ ns' → hash w' ns' = hash w ns')
    ∧ heap w `prefix_of` heap w'
    ∧ (∀ e, r = Raise e → w' = w).
Proof.
  intros Hcall Hlock. destruct Hcall.
  - rewrite run_set by done. eexists _, _. split; [done|].
    split_and!; try done. intros ns' Hne. by apply hash_put_hash_ne.
  - rewrite run_get by done. eexists _, _. by split_and!.
  - rewrite run_delete by done. eexists _, _. split; [done|].
    split_and!; try done. intros ns' Hne. by apply hash_put_hash_ne.
  - rewrite run_contains by done. eexists _, _. by split_and!.
  - rewrite run_items by done.
    destruct (Cache._dict_from_typestring (hash w ns)) as [d|e];
      eexists _, _; (split; [done|]); split_and!; try done.
    by apply prefix_app_r.
  - rewrite run_length by done. eexists _, _. by split_and!.
  - assert (run (Cache.to_dict self b) w = run (Cache.to_dict self false) w) as ->.
    { destruct b; [|done]. destruct Hlock as [?|Hfree]; [done|].
      rewrite run_to_dict, run_to_dict_body by done. done. }
    rewrite run_to_dict_body.
    destruct (Cache._dict_from_typestring (hash w ns)) as [d|e];
      eexists _, _; (split; [done|]); split_and!; try done.
    by apply prefix_app_r.
  - rewrite run_clear by done. eexists _, _. split; [done|].
    split_and!; try done. intros ns' Hne. by apply hash_cleared_ne.
  - rewrite run_pop by done.
    destruct (decoded default (field self w key)) as [value|e];
      eexists _, _; (split; [done|]); split_and!; try done.
    intros ns' Hne. by apply hash_put_hash_ne.
  - rewrite run_update by done.
    destruct (decide (items = ∅));
      eexists _, _; (split; [done|]); split_and!; try done.
    intros ns' Hne. by apply hash_put_hash_ne.
  - rewrite run_increment by done. unfold incremented.
    destruct (decoded None (field self w key)) as [[value|]|e];
      [|eexists _, _; by split_and!..].
    destruct (isinstance_int value || isinstance_float value);
      [|eexists _, _; by split_and!].
    destruct (py_add value amount) as [sum|e];
      [|eexists _, _; by split_and!].
    eexists _, _. split; [done|].
    split_and!; try done. intros ns' Hne. by apply hash_put_hash_ne.
Qed.

End more_methods.

Section more_properties.
Context {codec : TypeCodec}.
Variable self : Cache.RedisCache.

Local Abbreviation ns := (Cache.namespace self).

Lemma field_deleted key w : field self (deleted self key w) key = None.
Proof. unfold deleted. by rewrite field_put_hash, lookup_delete_eq. Qed.

Lemma field_cleared key w : field self (cleared self w) key = None.
Proof. unfold field. by rewrite hash_cleared. Qed.

(** X1. [contains] answers whether the key is in the namespace and changes
    nothing; it answers true right after [set] and false right after
    [delete], whatever was there before. *)
Theorem contains_after_set_and_delete
    (key : RedisKeyType) (value : RedisValueType) (w : world) :
  ns ∉ locks w →
  run (Cache.contains self key true) w
  = Some (Ok (bool_decide (is_Some (field self w key))), w)
  ∧ run (Cache.set self key value true;; Cache.contains self key true) w
    = Some (Ok true, written self key value w)
  ∧ run (Cache.delete self key true;; Cache.contains self key true) w
    = Some (Ok false, deleted self key w).
Proof.
  intros Hfree. split_and!.
  - by rewrite run_contains by auto.
  - rewrite run_bind, run_set, run_contains by auto.
    rewrite field_written. by rewrite bool_decide_true.
  - rewrite run_bind, run_delete, run_contains by auto.
    fold (deleted self key w). rewrite field_deleted.
    by rewrite bool_decide_false by by intros [??].
Qed.

(** X2. [length] returns the number of fields the namespace holds and
    changes nothing: [set] on a key that is not there makes it one more,
    [set] on a key that is there leaves it as it is. *)
Theorem length_after_set
    (key : RedisKeyType) (value : RedisValueType) (w : world) :
  ns ∉ locks w →
  run (Cache.length self true) w = Some (Ok (Z.of_nat (size (hash w ns))), w)
  ∧ run (Cache.set self key value true;; Cache.length self true) w
    = Some (Ok (match field self w key with
                | Some _ => Z.of_nat (size (hash w ns))
                | None => Z.of_nat (size (hash w ns)) + 1
                end),
            written self key value w).
Proof.
  intros Hfree. split; [by rewrite run_length by auto|].
  rewrite run_bind, run_set, run_length by auto.
  unfold written at 1. rewrite hash_put_hash, map_size_insert. unfold field.
  destruct (hash w ns !! _key_to_typestring key); simpl; [done|].
  do 3 f_equal. lia.
Qed.

(** X3. What [delete] returns is by how much [length] drops: 1 for a key
    that was there, 0 for a key that was not. *)
Theorem delete_reply_is_length_drop (key : RedisKeyType) (w : world) :
  ns ∉ locks w →
  ∃ before removed after : Z,
    run (before ← Cache.length self true;
         reply ← Cache.delete self key true;
         after ← Cache.length self true;
         mret (before, reply, after)) w
    = Some (Ok (before, Some (VInt removed), after), deleted self key w)
    ∧ before = after + removed
    ∧ (removed = if bool_decide (is_Some (field self w key)) then 1 else 0).
Proof.
  intros Hfree. eexists _, _, _.
  rewrite run_bind, run_length by auto.
  rewrite run_bind, run_delete by auto.
  rewrite run_bind, run_length by auto.
  split; [done|]. rewrite hash_put_hash, map_size_delete. unfold field.
  destruct (hash w ns !! _key_to_typestring key) as [t|] eqn:Ht; simpl.
  - split; [|done].
    assert (size (hash w ns) ≠ 0)%nat; [|lia].
    intros Hsize%map_size_empty_inv. by rewrite Hsize, lookup_empty in Ht.
  - split; [lia|done].
Qed.

(** X4. After [clear] the namespace is empty: [length] is 0, no key is
    contained, [get] returns its default and [to_dict] hands out an empty
    dictionary. *)
Theorem clear_empties
    (key : RedisKeyType) (default : option RedisValueType) (w : world) :
  ns ∉ locks w →
  run (Cache.clear self true;; Cache.length self true) w = Some (Ok 0, cleared self w)
  ∧ run (Cache.clear self true;; Cache.contains self key true) w
    = Some (Ok false, cleared self w)
  ∧ run (Cache.clear self true;; Cache.get self key default true) w
    = Some (Ok default, cleared self w)
  ∧ run (Cache.clear self true;; Cache.to_dict self true) w
    = Some (Ok (S (length (heap w))), with_heap (heap w ++ [∅; ∅]) (cleared self w)).
Proof.
  intros Hfree. split_and!; rewrite run_bind, run_clear by auto.
  - rewrite run_length by auto. by rewrite hash_cleared, map_size_empty.
  - rewrite run_contains by auto. rewrite field_cleared.
    by rewrite bool_decide_false by by intros [??].
  - rewrite run_get by auto. by rewrite field_cleared.
  - rewrite run_to_dict by auto. rewrite hash_cleared.
    unfold Cache._dict_from_typestring. by rewrite map_to_list_empty.
Qed.

(** X5. A call on one cache leaves every other namespace as it was: a
    [get], [contains] or [length] on a cache of another namespace answers
    after the call what it answered before. *)
Theorem other_namespace_untouched {A} (p : prog A) (other : Cache.RedisCache)
    (key : RedisKeyType) (default : option RedisValueType)
    (w w' : world) (r : result A) :
  api_call self true p →
  ns ∉ locks w →
  ns ≠ Cache.namespace other →
  run p w = Some (r, w') →
  hash w' (Cache.namespace other) = hash w (Cache.namespace other)
  ∧ fst <$> run (Cache.get other key default true) w'
    = fst <$> run (Cache.get other key default true) w
  ∧ fst <$> run (Cache.contains other key true) w'
    = fst <$> run (Cache.contains other key true) w
  ∧ fst <$> run (Cache.length other true) w'
    = fst <$> run (Cache.length other true) w.
Proof.
  intros Hcall Hfree Hne Hrun.
  destruct (api_call_run self p true w Hcall) as (r0 & w0 & Hrun0 & Hlocks & Hhash & _);
    [auto|].
  rewrite Hrun in Hrun0. injection Hrun0 as <- <-.
  specialize (Hhash _ Hne). split; [done|].
  destruct (decide (Cache.namespace other ∈ locks w)) as [Hheld|Hfree'].
  - unfold Cache.get, Cache.contains, Cache.length.
    rewrite !run_locked_held by (by rewrite ?Hlocks). done.
  - rewrite !run_get, !run_contains, !run_length by (right; by rewrite ?Hlocks).
    unfold field. by rewrite Hhash.
Qed.

(** X6. The reading calls, [get], [contains], [length], [items] and
    [to_dict], leave the Redis server as it was, whether they return or
    raise; all they may do is hand out new dictionaries. *)
Theorem readers_leave_store {A} (p : prog A) (w w' : world) (r : result A) :
  reader_call self true p →
  ns ∉ locks w →
  run p w = Some (r, w') →
  redis w' = redis w ∧ locks w' = locks w ∧ heap w `prefix_of` heap w'.
Proof.
  intros Hcall Hfree. destruct Hcall.
  - rewrite run_get by auto. by intros [= _ <-].
  - rewrite run_contains by auto. by intros [= _ <-].
  - rewrite run_items by auto.
    destruct (Cache._dict_from_typestring (hash w ns)); intros [= _ <-]; [|done].
    split_and!; [done..|]. by apply prefix_app_r.
  - rewrite run_length by auto. by intros [= _ <-].
  - rewrite run_to_dict by auto.
    destruct (Cache._dict_from_typestring (hash w ns)); intros [= _ <-]; [|done].
    split_and!; [done..|]. by apply prefix_app_r.
Qed.

(** X7. Called with the lock free, every method and [decrement] come to an
    end, returning or raising, and the lock is free again afterwards: no
    call blocks on the lock it took itself and no exit path keeps it. *)
Theorem calls_end_with_lock_released {A} (p : prog A)
    (key : RedisKeyType) (amount : RedisValueType) (w : world) :
  api_call self true p →
  ns ∉ locks w →
  (∃ r w', run p w = Some (r, w') ∧ ns ∉ locks w')
  ∧ (∃ r w', run (Cache.decrement self key amount) w = Some (r, w') ∧ ns ∉ locks w').
Proof.
  intros Hcall Hfree. split.
  - destruct (api_call_run self p true w Hcall) as (r & w' & Hrun & Hlocks & _); [auto|].
    exists r, w'. split; [done|]. by rewrite Hlocks.
  - rewrite run_decrement by done. destruct (py_neg amount) as [negated|e].
    + destruct (api_call_run self _ true w (call_increment self true key negated))
        as (r & w' & Hrun & Hlocks & _); [auto|].
      rewrite run_increment in Hrun by auto. injection Hrun as Hrun.
      exists r, w'. split; [by rewrite Hrun|]. by rewrite Hlocks.
    + by eexists _, _.
Qed.

(** X8. A call that raises has changed nothing: the store, the locks and
    the dictionaries handed out are as before the call.  The same holds
    for [decrement]. *)
Theorem raising_call_changes_nothing {A} (p : prog A)
    (key : RedisKeyType) (amount : RedisValueType) (w w' : world) (e : exn) :
  api_call self true p →
  ns ∉ locks w →
  (run p w = Some (Raise e, w') → w' = w)
  ∧ (run (Cache.decrement self key amount) w = Some (Raise e, w') → w' = w).
Proof.
  intros Hcall Hfree. split.
  - intros Hrun.
    destruct (api_call_run self p true w Hcall) as (r0 & w0 & Hrun0 & _ & _ & _ & Hraise);
      [auto|].
    rewrite Hrun in Hrun0. injection Hrun0 as <- <-. by eapply Hraise.
  - rewrite run_decrement by done. destruct (py_neg amount) as [negated|e'].
    + intros Hrun.
      destruct (api_call_run self _ true w (call_increment self true key negated))
        as (r0 & w0 & Hrun0 & _ & _ & _ & Hraise); [auto|].
      rewrite run_increment in Hrun0 by auto. rewrite Hrun in Hrun0.
      injection Hrun0 as <- <-. by eapply Hraise.
    + by intros [= _ <-].
Qed.

End more_properties.

(** ** Entries no codec wrote, other keys, and going there and back *)

Section entries.
Context {codec : TypeCodec}.
Variable self : Cache.RedisCache.

Local Abbreviation ns := (Cache.namespace self).

Lemma decode_items_raise (l : list (string * string)) k v e :
  (k, v) ∈ l →
  _value_from_typestring v = Raise e →
  ∃ e', Cache.decode_items l = Raise e'.
Proof.
  intros Hin Hv. induction l as [|[k0 v0] l IH]; [by apply elem_of_nil in Hin|].
  simpl. destruct (_key_from_typestring k0) as [k0'|e0]; [|by eexists].
  destruct (_value_from_typestring v0) as [v0'|e0] eqn:Hv0; [|by eexists].
  apply elem_of_cons in Hin as [[= -> ->]|Hin]; [congruence|].
  destruct (IH Hin) as [e' ->]. by eexists.
Qed.

(** X9. A field whose value does not decode makes [get], [pop] and
    [increment] raise the codec's error and stay where it is, and makes
    [items] raise as a whole; [contains] still sees the key and [delete]
    still removes it. *)
Theorem undecodable_entry
    (key : RedisKeyType) (t : string) (e : exn)
    (default : option RedisValueType) (amount : RedisValueType) (w : world) :
  ns ∉ locks w →
  field self w key = Some t →
  _value_from_typestring t = Raise e →
  run (Cache.get self key default true) w = Some (Raise e, w)
  ∧ run (Cache.pop self key default true) w = Some (Raise e, w)
  ∧ run (Cache.increment self key amount true) w = Some (Raise e, w)
  ∧ (∃ e', run (Cache.items self true) w = Some (Raise e', w))
  ∧ run (Cache.contains self key true) w = Some (Ok true, w)
  ∧ run (Cache.delete self key true) w = Some (Ok (Some (VInt 1)), deleted self key w).
Proof.
  intros Hfree Ht He. split_and!.
  - rewrite run_get by auto. unfold decoded. by rewrite Ht, He.
  - rewrite run_pop by auto. unfold decoded. by rewrite Ht, He.
  - rewrite run_increment by auto. unfold incremented, decoded. by rewrite Ht, He.
  - rewrite run_items by auto. unfold Cache._dict_from_typestring.
    destruct (decode_items_raise (map_to_list (hash w ns)) _ _ _
                (proj2 (elem_of_map_to_list _ _ _) Ht) He) as [e' ->].
    by exists e'.
  - rewrite run_contains by auto. by rewrite Ht, bool_decide_true.
  - rewrite run_delete by auto. by rewrite Ht.
Qed.

Context {laws : TypeCodecLaws codec}.

Local Instance entries_key_Inj : Inj (=) (=) _key_to_typestring.
Proof. intros k1 k2. apply key_to_typestring_inj. Qed.

Lemma field_written_ne key other value w :
  key ≠ other → field self (written self key value w) other = field self w other.
Proof.
  intros Hne. unfold written. rewrite field_put_hash, lookup_insert_ne; [done|].
  intros E. by apply key_to_typestring_inj in E.
Qed.

Lemma field_deleted_ne key other w :
  key ≠ other → field self (deleted self key w) other = field self w other.
Proof.
  intros Hne. unfold deleted. rewrite field_put_hash, lookup_delete_ne; [done|].
  intros E. by apply key_to_typestring_inj in E.
Qed.

(** X10. [update] works like [dict.update]: afterwards [get] returns the
    new value for a key of the dictionary passed, and for any other key
    what it returned before. *)
Theorem update_then_get
    (items : pydict) (key : RedisKeyType) (default : option RedisValueType)
    (w : world) :
  ns ∉ locks w →
  items ≠ ∅ →
  run (Cache.update self items true;; Cache.get self key default true) w
  = Some (match items !! key with
          | Some value => Ok (Some value)
          | None => decoded default (field self w key)
          end, updated self items w).
Proof.
  intros Hfree Hitems. rewrite run_bind, run_update by auto.
  rewrite decide_False by done. rewrite run_get by auto.
  fold (updated self items w). do 2 f_equal.
  unfold updated. rewrite field_put_hash, lookup_union.
  unfold Cache._dict_to_typestring.
  rewrite (lookup_kmap _key_to_typestring), lookup_fmap.
  destruct (items !! key) as [value|]; simpl.
  - rewrite (union_Some_l _ (hash w ns !! _key_to_typestring key)).
    apply decoded_encoded.
  - by rewrite (left_id_L None union).
Qed.

(** X11. [set], [delete], [pop], [increment] and [decrement] on one key
    leave the field of every other key as it was, whether they return or
    raise. *)
Theorem other_keys_untouched
    (key other : RedisKeyType) (value amount : RedisValueType)
    (default : option RedisValueType) (w : world) :
  ns ∉ locks w →
  key ≠ other →
  (∀ r w', run (Cache.set self key value true) w = Some (r, w') →
     field self w' other = field self w other)
  ∧ (∀ r w', run (Cache.delete self key true) w = Some (r, w') →
     field self w' other = field self w other)
  ∧ (∀ r w', run (Cache.pop self key default true) w = Some (r, w') →
     field self w' other = field self w other)
  ∧ (∀ r w', run (Cache.increment self key amount true) w = Some (r, w') →
     field self w' other = field self w other)
  ∧ (∀ r w', run (Cache.decrement self key amount) w = Some (r, w') →
     field self w' other = field self w other).
Proof.
  intros Hfree Hne.
  assert (∀ a r w', incremented self a key w = (r, w') →
            field self w' other = field self w other) as Hinc.
  { intros a r w'. unfold incremented.
    destruct (decoded None (field self w key)) as [[v|]|e]; [|by intros [= _ <-]..].
    destruct (isinstance_int v || isinstance_float v); [|by intros [= _ <-]].
    destruct (py_add v a); intros [= _ <-]; [|done].
    by apply field_written_ne. }
  split_and!; intros r w'.
  - rewrite run_set by auto. intros [= _ <-]. by apply field_written_ne.
  - rewrite run_delete by auto. intros [= _ <-]. by apply field_deleted_ne.
  - rewrite run_pop by auto.
    destruct (decoded default (field self w key)); intros [= _ <-]; [|done].
    by apply field_deleted_ne.
  - rewrite run_increment by auto. intros [= Hrun]. by eapply Hinc.
  - rewrite run_decrement by auto.
    destruct (py_neg amount) as [negated|e].
    + intros [= Hrun]. by eapply Hinc.
    + by intros [= _ <-].
Qed.

(** X12. On a namespace that holds the encoded pairs of a dictionary,
    [length] is the number of pairs of the dictionary that [to_dict] hands
    out, and that dictionary is the one encoded. *)
Theorem length_is_size_of_to_dict (held : pydict) (w : world) :
  ns ∉ locks w →
  hash w ns = Cache._dict_to_typestring held →
  run (Cache.length self true) w = Some (Ok (Z.of_nat (size held)), w)
  ∧ run (Cache.to_dict self true) w
    = Some (Ok (S (length (heap w))), with_heap (heap w ++ [held; held]) w).
Proof.
  intros Hfree Hheld. split.
  - rewrite run_length by auto. rewrite Hheld. do 4 f_equal.
    rewrite <- !length_map_to_list.
    unfold Cache._dict_to_typestring.
    rewrite (map_to_list_kmap _key_to_typestring), map_to_list_fmap.
    by rewrite !length_fmap.
  - rewrite run_to_dict by auto. by rewrite Hheld, dict_round_trip.
Qed.

(** X13. On a stored integer, [increment] by an integer followed by
    [decrement] by the same integer leaves the integer that was stored. *)
Theorem increment_then_decrement
    (key : RedisKeyType) (amount z : Z) (t : string) (w : world) :
  ns ∉ locks w →
  field self w key = Some t →
  _value_from_typestring t = Ok (VInt z) →
  run (Cache.increment self key (VInt amount) true;;
       Cache.decrement self key (VInt amount);;
       Cache.get self key None true) w
  = Some (Ok (Some (VInt z)), written self key (VInt z) w).
Proof.
  intros Hfree Ht Hz.
  rewrite run_bind, run_increment by auto.
  rewrite (incremented_int _ _ _ _ _ _ Ht Hz).
  rewrite run_bind, run_decrement by auto.
  change (py_neg (VInt amount)) with (Ok (A:=RedisValueType) (VInt (- amount))).
  cbv iota beta.
  rewrite (incremented_int _ _ _ _ _ (z + amount) (field_written _ _ _ _))
    by apply value_round_trip.
  rewrite written_written, run_get by auto.
  replace (z + amount + - amount) with z by lia.
  by rewrite field_written, decoded_encoded.
Qed.

(** X14. A second [pop] of the same key finds nothing and returns its
    default; a second [delete] removes nothing and reports 0. *)
Theorem second_removal_finds_nothing
    (key : RedisKeyType) (t : string) (value : RedisValueType)
    (d1 d2 : option RedisValueType) (w : world) :
  ns ∉ locks w →
  field self w key = Some t →
  _value_from_typestring t = Ok value →
  run (a ← Cache.pop self key d1 true; b ← Cache.pop self key d2 true; mret (a, b)) w
  = Some (Ok (Some value, d2), deleted self key w)
  ∧ run (a ← Cache.delete self key true; b ← Cache.delete self key true; mret (a, b)) w
    = Some (Ok (Some (VInt 1), Some (VInt 0)), deleted self key w).
Proof.
  intros Hfree Ht Hvalue.
  assert (deleted self key (deleted self key w) = deleted self key w) as Htwice.
  { unfold deleted. by rewrite put_hash_put_hash, hash_put_hash, delete_delete_eq. }
  split.
  - rewrite run_bind, run_pop by auto. unfold decoded at 1. rewrite Ht, Hvalue.
    fold (deleted self key w).
    rewrite run_bind, run_pop by auto. rewrite field_deleted. unfold decoded.
    fold (deleted self key (deleted self key w)). by rewrite Htwice.
  - rewrite run_bind, run_delete by auto. rewrite Ht.
    fold (deleted self key w).
    rewrite run_bind, run_delete by auto. rewrite field_deleted.
    fold (deleted self key (deleted self key w)). by rewrite Htwice.
Qed.

End entries.

(** ** Any two calls scheduled together *)

Lemma run_task_step {A} (p p' : prog A) (w w' : world) :
  task_step p w = Some (p', w') → run p w = run p' w'.
Proof.
  destruct p as [r|X c k]; simpl; [done|].
  destruct (exec c w) as [[x w1]|]; [|done]. by intros [= <- <-].
Qed.

(** A task that runs alone runs to its end. *)
Lemma run_steps {A} (p : prog A) (ts : list (prog A)) (i : nat)
    (w w' : world) (r : result A) :
  ts !! i = Some p →
  run p w = Some (r, w') →
  rtc sched_step (ts, w) (<[i:=Done r]> ts, w').
Proof.
  revert ts w. induction p as [r0|X c k IH]; intros ts w Hi; simpl.
  - intros [= <- <-]. by rewrite list_insert_id.
  - destruct (exec c w) as [[x w1]|] eqn:Hexec; [|done]. intros Hrun.
    eapply rtc_l.
    + apply (sched_pick i ts (Vis c k) (k x) w w1); [done|]. simpl. by rewrite Hexec.
    + rewrite <- (list_insert_insert_eq ts i (Done r) (k x)).
      apply (IH x); [|done]. apply list_lookup_insert_eq. by eapply lookup_lt_Some.
Qed.

Section two_calls.
Context {A : Type}.
Variable self : Cache.RedisCache.

Local Abbreviation ns := (Cache.namespace self).
Local Abbreviation start m := (Cache.namespace_lock self m true).
Local Abbreviation inside q := (finally q (call (release ns))).

Lemma step_start (m p' : prog A) w w' :
  task_step (start m) w = Some (p', w') →
  (ns ∉ locks w) ∧ p' = inside m ∧ w' = with_locks ({[ns]} ∪ locks w) w.
Proof. simpl. case_decide; [done|]. by intros [= <- <-]. Qed.

Lemma step_inside (q p' : prog A) w w' :
  no_lock_cmds q →
  task_step (inside q) w = Some (p', w') →
  (∃ q', p' = inside q' ∧ no_lock_cmds q' ∧ locks w' = locks w)
  ∨ (∃ r, q = Done r ∧ p' = Done r ∧ w' = with_locks (locks w ∖ {[ns]}) w).
Proof.
  destruct q as [r|X c k]; simpl.
  - intros _ [= <- <-]. right. by exists r.
  - intros [Hc Hk]. destruct (exec c w) as [[x w1]|] eqn:Hexec; [|done].
    intros [= <- <-]. left. exists (k x). split_and!; [done..|].
    by eapply exec_locks.
Qed.

Lemma start_lock_free (m : prog A) w r w' :
  no_lock_cmds m → ns ∉ locks w →
  run (start m) w = Some (r, w') → ns ∉ locks w'.
Proof.
  intros Hm Hfree. rewrite run_namespace_lock by done. intros Hrun.
  by rewrite (run_locks _ _ _ _ Hm Hrun).
Qed.

Variable w0 : world.
Hypothesis w0_free : ns ∉ locks w0.

(** The task that took the lock first steps. *)
Lemma serial_inv_step_first (ma mb pa pb pa' : prog A) w w' :
  serial_inv self ma mb w0 pa pb w →
  task_step pa w = Some (pa', w') →
  serial_inv self ma mb w0 pa' pb w'.
Proof.
  intros Hinv Hstep. destruct Hinv as [qa w Hqa Hheld Hrun| | |]; [|done..].
  pose proof (run_task_step _ _ _ _ Hstep) as Hsame.
  destruct (step_inside _ _ _ _ Hqa Hstep)
    as [(q' & -> & Hq' & Hlocks)|(r & -> & -> & ->)].
  - apply first_inside; [done|by rewrite Hlocks|by rewrite <- Hsame].
  - apply first_done. by rewrite <- Hrun, Hsame.
Qed.

(** The other task steps. *)
Lemma serial_inv_step_second (ma mb pa pb pb' : prog A) w w' :
  no_lock_cmds mb →
  serial_inv self ma mb w0 pa pb w →
  task_step pb w = Some (pb', w') →
  serial_inv self ma mb w0 pa pb' w'.
Proof.
  intros Hmb Hinv Hstep.
  pose proof (run_task_step _ _ _ _ Hstep) as Hsame.
  destruct Hinv as [qa w Hqa Hheld Hrun|ra w1 Hra|ra w1 qb w Hra Hqb Hheld Hrun|];
    [| | |done].
  - by apply step_start in Hstep as [? _].
  - apply step_start in Hstep as (Hfree & -> & ->).
    eapply second_inside; [done|done| |by rewrite <- Hsame].
    apply elem_of_union. left. by apply elem_of_singleton.
  - destruct (step_inside _ _ _ _ Hqb Hstep)
      as [(q' & -> & Hq' & Hlocks)|(r & -> & -> & ->)].
    + eapply second_inside; [done|done|by rewrite Hlocks|by rewrite <- Hsame].
    + eapply both_done; [done|]. by rewrite <- Hrun, Hsame.
Qed.

Variables m1 m2 : prog A.
Hypothesis m1_no_lock : no_lock_cmds m1.
Hypothesis m2_no_lock : no_lock_cmds m2.

Lemma serial_step c c' :
  serial self m1 m2 w0 c → sched_step c c' → serial self m1 m2 w0 c'.
Proof.
  intros Hinv Hstep. destruct Hstep as [i ts p p' w w' Hp Hstep].
  destruct Hinv as [[= -> ->]|[(p1 & p2 & Hts & Hinv)|(p1 & p2 & Hts & Hinv)]];
    simpl in *; subst.
  - pose proof (run_task_step _ _ _ _ Hstep) as Hsame.
    destruct i as [|[|i]]; [| |done]; simpl in Hp; injection Hp as <-;
      apply step_start in Hstep as (_ & -> & ->).
    + right; left. eexists _, _. split; [done|]. simpl.
      apply first_inside; [done| |done].
      apply elem_of_union. left. by apply elem_of_singleton.
    + right; right. eexists _, _. split; [done|]. simpl.
      apply first_inside; [done| |done].
      apply elem_of_union. left. by apply elem_of_singleton.
  - destruct i as [|[|i]]; [| |done]; simpl in Hp; injection Hp as <-.
    + right; left. eexists _, _. split; [done|]. by eapply serial_inv_step_first.
    + right; left. eexists _, _. split; [done|]. by eapply serial_inv_step_second.
  - destruct i as [|[|i]]; [| |done]; simpl in Hp; injection Hp as <-.
    + right; right. eexists _, _. split; [done|]. by eapply serial_inv_step_second.
    + right; right. eexists _, _. split; [done|]. by eapply serial_inv_step_first.
Qed.

Lemma serial_reachable c :
  rtc sched_step ([start m1; start m2], w0) c → serial self m1 m2 w0 c.
Proof.
  revert c. apply rtc_ind_r; [by left|]. intros c1 c2 _ Hstep Hinv.
  by eapply serial_step.
Qed.

Lemma serial_inv_finished (ma mb pa pb : prog A) w :
  serial_inv self ma mb w0 pa pb w →
  (∃ r, pa = Done r) → (∃ r, pb = Done r) →
  ∃ ra rb w1, pa = Done ra ∧ pb = Done rb
    ∧ run (start ma) w0 = Some (ra, w1) ∧ run (start mb) w1 = Some (rb, w).
Proof.
  intros Hinv [ra Hra] [rb Hrb].
  destruct Hinv as [qa w| |ra' w1 qb w|ra' w1 rb' w Ha Hb].
  - by destruct qa.
  - done.
  - by destruct qb.
  - by exists ra', rb', w1.
Qed.

(** When both tasks are done, they have acted one after the other. *)
Lemma serial_finished c :
  serial self m1 m2 w0 c →
  finished c.1 →
  ∃ r1 r2 w1, c.1 = [Done r1; Done r2]
    ∧ ((run (start m1) w0 = Some (r1, w1) ∧ run (start m2) w1 = Some (r2, c.2))
       ∨ (run (start m2) w0 = Some (r2, w1) ∧ run (start m1) w1 = Some (r1, c.2))).
Proof.
  intros [->|[(p1 & p2 & Hts & Hinv)|(p1 & p2 & Hts & Hinv)]] Hfin.
  - by apply Forall_cons in Hfin as [[r1 Hr1] _].
  - rewrite Hts in Hfin.
    apply Forall_cons in Hfin as [H1 [H2 _]%Forall_cons].
    destruct (serial_inv_finished _ _ _ _ _ Hinv H1 H2)
      as (r1 & r2 & w1 & -> & -> & Hr1 & Hr2).
    exists r1, r2, w1. split; [done|]. by left.
  - rewrite Hts in Hfin.
    apply Forall_cons in Hfin as [H1 [H2 _]%Forall_cons].
    destruct (serial_inv_finished _ _ _ _ _ Hinv H2 H1)
      as (r2 & r1 & w1 & -> & -> & Hr2 & Hr1).
    exists r1, r2, w1. split; [done|]. by right.
Qed.

(** Two calls that end when run alone also end when scheduled together. *)
Lemma serial_inv_can_finish (ma mb pa pb : prog A) w ts ia ib :
  no_lock_cmds ma →
  (∀ w, ns ∉ locks w → is_Some (run (start ma) w)) →
  (∀ w, ns ∉ locks w → is_Some (run (start mb) w)) →
  ia ≠ ib → ts !! ia = Some pa → ts !! ib = Some pb →
  serial_inv self ma mb w0 pa pb w →
  ∃ ra rb w', rtc sched_step (ts, w) (<[ib:=Done rb]> (<[ia:=Done ra]> ts), w').
Proof.
  intros Hma Hma_ends Hmb_ends Hne Hia Hib Hinv.
  destruct Hinv as [qa w Hqa Hheld Hrun|ra w1 Hra|ra w1 qb w Hra Hqb Hheld Hrun
                   |ra w1 rb w Hra Hrb].
  - destruct (Hma_ends w0 w0_free) as [[ra w1] Hra]. rewrite Hra in Hrun.
    destruct (Hmb_ends w1) as [[rb w'] Hrb];
      [apply (start_lock_free ma w0 ra w1 Hma w0_free Hra)|].
    exists ra, rb, w'. etrans; [apply (run_steps _ ts ia _ _ _ Hia Hrun)|].
    apply (run_steps (start mb)); [|done]. by rewrite list_lookup_insert_ne.
  - destruct (Hmb_ends w1) as [[rb w'] Hrb];
      [apply (start_lock_free ma w0 ra w1 Hma w0_free Hra)|].
    exists ra, rb, w'. rewrite (list_insert_id ts ia) by done.
    by eapply run_steps.
  - destruct (Hmb_ends w1) as [[rb w'] Hrb];
      [apply (start_lock_free ma w0 ra w1 Hma w0_free Hra)|].
    rewrite Hrb in Hrun.
    exists ra, rb, w'. rewrite (list_insert_id ts ia) by done.
    by eapply run_steps.
  - exists ra, rb, w. by rewrite !list_insert_id by (by rewrite ?list_insert_id).
Qed.

Hypothesis m1_ends : ∀ w, ns ∉ locks w → is_Some (run (start m1) w).
Hypothesis m2_ends : ∀ w, ns ∉ locks w → is_Some (run (start m2) w).

Lemma serial_can_finish c :
  serial self m1 m2 w0 c →
  ∃ c', rtc sched_step c c' ∧ finished c'.1.
Proof.
  assert (∀ r1 r2 : result A, finished [Done r1; Done r2]) as Hfin
    by (intros; repeat constructor; by eexists).
  intros [->|[(p1 & p2 & Hts & Hinv)|(p1 & p2 & Hts & Hinv)]].
  - destruct (m1_ends w0 w0_free) as [[r1 w1] Hr1].
    destruct (m2_ends w1) as [[r2 w2] Hr2];
      [apply (start_lock_free m1 w0 r1 w1 m1_no_lock w0_free Hr1)|].
    exists ([Done r1; Done r2], w2). split; [|apply Hfin].
    etrans; [by apply (run_steps (start m1) [start m1; start m2] 0%nat w0 w1 r1)|].
    by apply (run_steps (start m2) [Done r1; start m2] 1%nat w1 w2 r2).
  - destruct c as [ts w]; simpl in *; subst ts.
    destruct (serial_inv_can_finish m1 m2 p1 p2 w [p1; p2] 0%nat 1%nat)
      as (r1 & r2 & w' & Hsteps); [done..|].
    exists ([Done r1; Done r2], w'). split; [exact Hsteps|apply Hfin].
  - destruct c as [ts w]; simpl in *; subst ts.
    destruct (serial_inv_can_finish m2 m1 p2 p1 w [p1; p2] 1%nat 0%nat)
      as (r2 & r1 & w' & Hsteps); [done..|].
    exists ([Done r1; Done r2], w'). split; [exact Hsteps|apply Hfin].
Qed.

End two_calls.

(** ** Results in a sum *)

Lemma same_prog_refl {A} (p : prog A) : same_prog p p.
Proof.
  induction p as [r|X c k IH]; simpl; [done|]. exists k. by split.
Qed.

Lemma same_prog_sym {A} (p q : prog A) : same_prog p q → same_prog q p.
Proof.
  revert q. induction p as [r|X c k IH]; simpl.
  - by intros q ->.
  - intros q (k' & -> & Hk). simpl. exists k. split; [done|].
    intros x. by apply IH.
Qed.

Lemma same_prog_step {A} (p q p' : prog A) (w w' : world) :
  same_prog p q →
  task_step p w = Some (p', w') →
  ∃ q', task_step q w = Some (q', w') ∧ same_prog p' q'.
Proof.
  destruct p as [r|X c k]; simpl; [done|].
  intros (k' & -> & Hk). simpl.
  destruct (exec c w) as [[x w1]|]; [|done]. intros [= <- <-].
  exists (k' x). by split.
Qed.

Lemma same_prog_run {A} (p q : prog A) (w : world) :
  same_prog p q → run p w = run q w.
Proof.
  revert q w. induction p as [r|X c k IH]; simpl.
  - by intros q w ->.
  - intros q w (k' & -> & Hk). simpl.
    destruct (exec c w) as [[x w1]|]; [|done]. by apply IH.
Qed.

Lemma same_progs_sym {A} (ts us : list (prog A)) :
  Forall2 same_prog ts us → Forall2 same_prog us ts.
Proof.
  intros Hsame. apply Forall2_flip.
  eapply Forall2_impl; [done|]. intros p q. apply same_prog_sym.
Qed.

Lemma same_progs_finished {A} (ts us : list (prog A)) :
  Forall2 same_prog ts us → finished ts → us = ts.
Proof.
  unfold finished. induction 1 as [|p q ts us Hpq _ IH]; [done|].
  intros [[r ->] Hts]%Forall_cons. simpl in Hpq. subst q. by rewrite IH.
Qed.

(** Lists of tasks that are alike take the same steps. *)
Lemma same_progs_step {A} (ts us : list (prog A)) (w : world)
    (c' : list (prog A) * world) :
  Forall2 same_prog ts us →
  sched_step (ts, w) c' →
  ∃ us', sched_step (us, w) (us', c'.2) ∧ Forall2 same_prog c'.1 us'.
Proof.
  intros Hsame Hstep. inversion Hstep as [i ts0 p p' w0 w' Hp Htask]; subst.
  destruct (Forall2_lookup_l _ _ _ _ _ Hsame Hp) as (q & Hq & Hpq).
  destruct (same_prog_step _ _ _ _ _ Hpq Htask) as (q' & Htask' & Hpq').
  exists (<[i:=q']> us). split; [by eapply sched_pick|].
  by apply Forall2_insert.
Qed.

Lemma same_progs_steps {A} (c c' : list (prog A) * world) (us : list (prog A)) :
  rtc sched_step c c' →
  Forall2 same_prog c.1 us →
  ∃ us', rtc sched_step (us, c.2) (us', c'.2) ∧ Forall2 same_prog c'.1 us'.
Proof.
  intros Hsteps. revert us.
  induction Hsteps as [c|c1 c2 c3 Hstep _ IH]; intros us Hsame.
  - by exists us.
  - destruct c1 as [ts w].
    destruct (same_progs_step _ _ _ _ Hsame Hstep) as (us2 & Hstep2 & Hsame2).
    destruct (IH us2 Hsame2) as (us3 & Hsteps3 & Hsame3).
    exists us3. split; [|done]. by eapply rtc_l.
Qed.

Lemma run_fmap {A B} (f : A → B) (p : prog A) (w : world) :
  run (f <$> p) w = (λ rw : result A * world, (f <$> rw.1, rw.2)) <$> run p w.
Proof.
  unfold fmap at 1, prog_fmap. rewrite run_bind.
  by destruct (run p w) as [[[a|e] w']|].
Qed.

Lemma no_lock_cmds_fmap {A B} (f : A → B) (p : prog A) :
  no_lock_cmds p → no_lock_cmds (f <$> p).
Proof. intros Hp. by apply no_lock_cmds_bind. Qed.

(** Tagging the result of a decorated method is tagging the result of its
    body. *)
Lemma fmap_finally {A B} (f : A → B) (p : prog A) (ns : string) :
  same_prog (f <$> finally p (call (release ns)))
            (finally (f <$> p) (call (release ns))).
Proof.
  induction p as [[a|e]|X c k IH].
  - apply same_prog_refl.
  - apply same_prog_refl.
  - exists (λ x, finally (f <$> k x) (call (release ns))). by split.
Qed.

Lemma fmap_namespace_lock {A B} (f : A → B) (self : Cache.RedisCache)
    (method : prog A) :
  same_prog (f <$> Cache.namespace_lock self method true)
            (Cache.namespace_lock self (f <$> method) true).
Proof.
  exists (λ _, finally (f <$> method) (call (release (Cache.namespace self)))).
  split; [done|]. intros x. apply fmap_finally.
Qed.

Section calls_together.
Context {codec : TypeCodec}.
Variable self : Cache.RedisCache.

Local Abbreviation ns := (Cache.namespace self).

(** Every decorated method is a body without lock commands under the
    decorator. *)
Lemma api_call_body {A} (p : prog A) b :
  api_call self b p →
  ∃ m, p = Cache.namespace_lock self m b ∧ no_lock_cmds m.
Proof.
  pose proof (no_lock_get self). pose proof (no_lock_set self).
  pose proof (no_lock_delete self). pose proof (no_lock_items self).
  intros []; (eexists; split; [reflexivity|]); cbv zeta; solve_no_lock.
Qed.

(** Two calls scheduled together, both done: one has acted after the other. *)
Lemma api_calls_serial {A} (p1 p2 : prog A) (w : world)
    (c : list (prog A) * world) :
  api_call self true p1 →
  api_call self true p2 →
  ns ∉ locks w →
  rtc sched_step ([p1; p2], w) c →
  finished c.1 →
  ∃ r1 r2 w1, c.1 = [Done r1; Done r2]
    ∧ ((run p1 w = Some (r1, w1) ∧ run p2 w1 = Some (r2, c.2))
       ∨ (run p2 w = Some (r2, w1) ∧ run p1 w1 = Some (r1, c.2))).
Proof.
  intros (m1 & -> & Hm1)%api_call_body (m2 & -> & Hm2)%api_call_body Hfree Hsteps.
  apply (serial_finished self w).
  by apply serial_reachable.
Qed.

(** X15. Two calls of decorated methods on the same cache, with results
    of any two types, scheduled in any way: when both are done, their
    results and the world are those of one call run to its end followed by
    the other, in one of the two orders; and from wherever the schedule has
    come both can still be brought to their end. *)
Theorem two_calls_serialise {A B} (p1 : prog A) (p2 : prog B) (w : world)
    (c : list (prog (A + B)) * world) :
  api_call self true p1 →
  api_call self true p2 →
  ns ∉ locks w →
  rtc sched_step ([inl <$> p1; inr <$> p2], w) c →
  (finished c.1 →
     ∃ r1 r2 w1, c.1 = [Done (inl <$> r1); Done (inr <$> r2)]
       ∧ ((run p1 w = Some (r1, w1) ∧ run p2 w1 = Some (r2, c.2))
          ∨ (run p2 w = Some (r2, w1) ∧ run p1 w1 = Some (r1, c.2))))
  ∧ ∃ c', rtc sched_step c c' ∧ finished c'.1.
Proof.
  intros Hp1 Hp2 Hfree Hsteps.
  pose proof Hp1 as (m1 & Hm1 & Hno1)%api_call_body.
  pose proof Hp2 as (m2 & Hm2 & Hno2)%api_call_body.
  pose (q1 := Cache.namespace_lock self (inl <$> m1 : prog (A + B)) true).
  pose (q2 := Cache.namespace_lock self (inr <$> m2 : prog (A + B)) true).
  assert (∀ w', run q1 w' = run (inl <$> p1) w') as Hq1.
  { intros w'. symmetry. rewrite Hm1. apply same_prog_run, fmap_namespace_lock. }
  assert (∀ w', run q2 w' = run (inr <$> p2) w') as Hq2.
  { intros w'. symmetry. rewrite Hm2. apply same_prog_run, fmap_namespace_lock. }
  assert (Forall2 same_prog [inl <$> p1; inr <$> p2] [q1; q2]) as Hsame.
  { rewrite Hm1, Hm2. repeat constructor; apply fmap_namespace_lock. }
  destruct c as [ts w'].
  destruct (same_progs_steps _ _ _ Hsteps Hsame) as (us & Hsteps' & Hsame').
  simpl in Hsteps', Hsame'.
  assert (serial self (inl <$> m1) (inr <$> m2) w (us, w')) as Hserial.
  { apply serial_reachable; [by apply no_lock_cmds_fmap..|done]. }
  split.
  - simpl. intros Hfin.
    pose proof (same_progs_finished _ _ Hsame' Hfin) as ->.
    destruct (serial_finished self w _ _ _ Hserial Hfin)
      as (r1' & r2' & w1 & Hts & Hruns).
    cbn [fst snd] in Hts, Hruns.
    change (Cache.namespace_lock self (inl <$> m1) true) with q1 in Hruns.
    change (Cache.namespace_lock self (inr <$> m2) true) with q2 in Hruns.
    rewrite !Hq1, !Hq2, !run_fmap in Hruns.
    destruct Hruns as [[Hfirst Hsecond]|[Hfirst Hsecond]].
    + destruct (run p1 w) as [[r1 w1']|] eqn:Hr1; [|done].
      injection Hfirst as <- <-.
      destruct (run p2 w1') as [[r2 w2]|] eqn:Hr2; [|done].
      injection Hsecond as <- <-.
      exists r1, r2, w1'. split; [done|]. by left.
    + destruct (run p2 w) as [[r2 w1']|] eqn:Hr2; [|done].
      injection Hfirst as <- <-.
      destruct (run p1 w1') as [[r1 w2]|] eqn:Hr1; [|done].
      injection Hsecond as <- <-.
      exists r1, r2, w1'. split; [done|]. by right.
  - assert (∀ {C} (p : prog C) w0, api_call self true p → ns ∉ locks w0 →
              is_Some (run p w0)) as Hends.
    { intros C p w0 Hp Hfree0.
      destruct (api_call_run self p true w0 Hp) as (r & w'' & -> & _); by auto. }
    assert (∀ w0, ns ∉ locks w0 → is_Some (run q1 w0)) as Hends1.
    { intros w0 Hfree0. rewrite Hq1, run_fmap.
      destruct (Hends _ p1 w0 Hp1 Hfree0) as [rw ->]. by eexists. }
    assert (∀ w0, ns ∉ locks w0 → is_Some (run q2 w0)) as Hends2.
    { intros w0 Hfree0. rewrite Hq2, run_fmap.
      destruct (Hends _ p2 w0 Hp2 Hfree0) as [rw ->]. by eexists. }
    destruct (serial_can_finish self w Hfree (inl <$> m1) (inr <$> m2)
                (no_lock_cmds_fmap _ _ Hno1) (no_lock_cmds_fmap _ _ Hno2)
                Hends1 Hends2 (us, w') Hserial) as ([ds wd] & Hsteps'' & Hfin).
    + destruct (same_progs_steps _ _ ts Hsteps'') as (ts' & Hback & Hsame'');
        [by apply same_progs_sym|].
      simpl in Hback, Hsame'', Hfin.
      exists (ts', wd). split; [done|]. simpl.
      by rewrite (same_progs_finished _ _ Hsame'' Hfin).
Qed.

(** X16. Two [pop]s of the same key scheduled together: exactly one of
    them returns the stored value, the other returns its default, and the
    key is gone. *)
Theorem concurrent_pops_deliver_once
    (key : RedisKeyType) (t : string) (value : RedisValueType)
    (d1 d2 : option RedisValueType) (w : world)
    (c : list (prog (option RedisValueType)) * world) :
  ns ∉ locks w →
  field self w key = Some t →
  _value_from_typestring t = Ok value →
  rtc sched_step ([Cache.pop self key d1 true; Cache.pop self key d2 true], w) c →
  finished c.1 →
  (c.1 = [Done (Ok (Some value)); Done (Ok d2)]
   ∨ c.1 = [Done (Ok d1); Done (Ok (Some value))])
  ∧ field self c.2 key = None.
Proof.
  intros Hfree Ht Hvalue Hsteps Hfin.
  destruct (api_calls_serial _ _ w c (call_pop self true key d1)
              (call_pop self true key d2) Hfree Hsteps Hfin)
    as (r1 & r2 & w1 & -> & [[Hfirst Hsecond]|[Hfirst Hsecond]]).
  - rewrite run_pop in Hfirst by auto. unfold decoded in Hfirst.
    rewrite Ht, Hvalue in Hfirst. injection Hfirst as <- <-.
    fold (deleted self key w) in Hsecond.
    rewrite run_pop in Hsecond by auto. rewrite field_deleted in Hsecond.
    injection Hsecond as <- <-.
    split; [by left|]. fold (deleted self key (deleted self key w)).
    apply field_deleted.
  - rewrite run_pop in Hfirst by auto. unfold decoded in Hfirst.
    rewrite Ht, Hvalue in Hfirst. injection Hfirst as <- <-.
    fold (deleted self key w) in Hsecond.
    rewrite run_pop in Hsecond by auto. rewrite field_deleted in Hsecond.
    injection Hsecond as <- <-.
    split; [by right|]. fold (deleted self key (deleted self key w)).
    apply field_deleted.
Qed.

End calls_together.

(** * More of the methods, on the tagged codec *)

Section more_examples.
#[local] Existing Instance TaggedCodec.codec.
#[local] Existing Instance tagged_codec_laws.

Local Abbreviation cache := some_cog_cache.
Local Abbreviation key := (KStr "key").

Lemma corrupted_unlocked ns : ns ∉ locks corrupted.
Proof. apply not_elem_of_empty. Qed.

Lemma contains_after_set_and_delete_witness :
  (Cache.namespace cache ∉ locks fresh)
  ∧ run (Cache.set cache key (VInt 1) true;; Cache.contains cache key true) fresh
    = Some (Ok true, written cache key (VInt 1) fresh)
  ∧ run (Cache.delete cache key true;; Cache.contains cache key true) fresh
    = Some (Ok false, deleted cache key fresh).
Proof.
  split; [apply fresh_unlocked|].
  apply (contains_after_set_and_delete cache key (VInt 1) fresh), fresh_unlocked.
Defined.

Lemma length_after_set_witness :
  (Cache.namespace cache ∉ locks (holding key (VInt 3)))
  ∧ run (Cache.length cache true) (holding key (VInt 3))
    = Some (Ok 1, holding key (VInt 3))
  ∧ fst <$> run (Cache.set cache (KInt 7) (VBool true) true;; Cache.length cache true)
                (holding key (VInt 3))
    = Some (Ok 2)
  ∧ fst <$> run (Cache.set cache key (VInt 4) true;; Cache.length cache true)
                (holding key (VInt 3))
    = Some (Ok 1).
Proof.
  destruct (length_after_set cache (KInt 7) (VBool true) (holding key (VInt 3))
              (holding_unlocked _ _ _)) as [Hlength Hnew].
  destruct (length_after_set cache key (VInt 4) (holding key (VInt 3))
              (holding_unlocked _ _ _)) as [_ Hold].
  split; [apply holding_unlocked|]. split_and!.
  - rewrite Hlength. by vm_compute.
  - rewrite Hnew. by vm_compute.
  - rewrite Hold. by vm_compute.
Defined.

Lemma delete_reply_is_length_drop_witness :
  (Cache.namespace cache ∉ locks (holding key (VInt 3)))
  ∧ ∃ before removed after : Z,
      run (before ← Cache.length cache true;
           reply ← Cache.delete cache key true;
           after ← Cache.length cache true;
           mret (before, reply, after)) (holding key (VInt 3))
      = Some (Ok (before, Some (VInt removed), after),
              deleted cache key (holding key (VInt 3)))
      ∧ before = after + removed
      ∧ (removed = if bool_decide (is_Some (field cache (holding key (VInt 3)) key))
                   then 1 else 0).
Proof.
  split; [apply holding_unlocked|].
  apply (delete_reply_is_length_drop cache key), holding_unlocked.
Defined.

Lemma clear_empties_witness :
  (Cache.namespace cache ∉ locks (holding key (VInt 3)))
  ∧ run (Cache.clear cache true;; Cache.length cache true) (holding key (VInt 3))
    = Some (Ok 0, cleared cache (holding key (VInt 3)))
  ∧ run (Cache.clear cache true;; Cache.get cache key None true) (holding key (VInt 3))
    = Some (Ok None, cleared cache (holding key (VInt 3))).
Proof.
  split; [apply holding_unlocked|].
  destruct (clear_empties cache key None (holding key (VInt 3))
              (holding_unlocked _ _ _)) as (Hlength & _ & Hget & _).
  by split.
Defined.

Lemma two_cogs_unlocked ns : ns ∉ locks two_cogs.
Proof. apply not_elem_of_empty. Qed.

Lemma other_namespace_untouched_witness :
  api_call cache true (Cache.clear cache true)
  ∧ (Cache.namespace cache ∉ locks two_cogs)
  ∧ Cache.namespace cache ≠ Cache.namespace other_cog_cache
  ∧ run (Cache.clear cache true) two_cogs = Some (Ok tt, cleared cache two_cogs)
  ∧ field cache two_cogs key = Some "INT:3"
  ∧ field cache (cleared cache two_cogs) key = None
  ∧ field other_cog_cache two_cogs key = Some "INT:9"
  ∧ hash (cleared cache two_cogs) (Cache.namespace other_cog_cache)
    = hash two_cogs (Cache.namespace other_cog_cache)
  ∧ fst <$> run (Cache.get other_cog_cache key None true) (cleared cache two_cogs)
    = Some (Ok (Some (VInt 9)))
  ∧ fst <$> run (Cache.length other_cog_cache true) (cleared cache two_cogs)
    = Some (Ok 1).
Proof.
  assert (run (Cache.clear cache true) two_cogs
          = Some (Ok tt, cleared cache two_cogs)) as Hrun by by vm_compute.
  assert (Cache.namespace cache ≠ Cache.namespace other_cog_cache) as Hne by done.
  destruct (other_namespace_untouched cache (Cache.clear cache true) other_cog_cache
              key None _ _ _ (call_clear cache true) (two_cogs_unlocked _) Hne Hrun)
    as (Hhash & Hget & _ & Hlength).
  split; [constructor|]. split; [apply two_cogs_unlocked|]. split; [done|].
  split; [done|]. split; [by vm_compute|]. split; [by vm_compute|].
  split; [by vm_compute|]. split; [done|]. split.
  - rewrite Hget. by vm_compute.
  - rewrite Hlength. by vm_compute.
Defined.

Lemma readers_leave_store_witness :
  reader_call cache true (Cache.to_dict cache true)
  ∧ (Cache.namespace cache ∉ locks (holding key (VInt 3)))
  ∧ ∃ r w', run (Cache.to_dict cache true) (holding key (VInt 3)) = Some (r, w')
      ∧ redis w' = redis (holding key (VInt 3))
      ∧ locks w' = locks (holding key (VInt 3))
      ∧ heap (holding key (VInt 3)) `prefix_of` heap w'.
Proof.
  split; [constructor|]. split; [apply holding_unlocked|].
  destruct (run (Cache.to_dict cache true) (holding key (VInt 3)))
    as [[r w']|] eqn:Hrun; [|by vm_compute in Hrun].
  exists r, w'. split; [done|].
  apply (readers_leave_store cache _ _ _ _ (read_to_dict cache true)
           (holding_unlocked _ _ _) Hrun).
Defined.

Lemma calls_end_with_lock_released_witness :
  api_call cache true (Cache.increment cache (KStr "missing") (VInt 1) true)
  ∧ (Cache.namespace cache ∉ locks fresh)
  ∧ ∃ r w', run (Cache.increment cache (KStr "missing") (VInt 1) true) fresh
            = Some (r, w')
    ∧ Cache.namespace cache ∉ locks w'.
Proof.
  split; [constructor|]. split; [apply fresh_unlocked|].
  apply (calls_end_with_lock_released cache _ key (VInt 1) fresh
           (call_increment cache true (KStr "missing") (VInt 1)) (fresh_unlocked _)).
Defined.

Lemma raising_call_changes_nothing_witness :
  api_call cache true (Cache.increment cache key (VInt 1) true)
  ∧ (Cache.namespace cache ∉ locks (holding key (VStr "text")))
  ∧ ∃ w', run (Cache.increment cache key (VInt 1) true) (holding key (VStr "text"))
          = Some (Raise TypeError, w')
    ∧ w' = holding key (VStr "text").
Proof.
  split; [constructor|]. split; [apply holding_unlocked|].
  destruct (run (Cache.increment cache key (VInt 1) true) (holding key (VStr "text")))
    as [[[|e] w']|] eqn:Hrun; [by vm_compute in Hrun| |by vm_compute in Hrun].
  assert (e = TypeError) as -> by (vm_compute in Hrun; congruence).
  exists w'. split; [done|].
  apply (raising_call_changes_nothing cache _ key (VInt 1) _ w' TypeError
           (call_increment cache true key (VInt 1)) (holding_unlocked _ _ _)), Hrun.
Defined.

Lemma undecodable_entry_witness :
  (Cache.namespace cache ∉ locks corrupted)
  ∧ field cache corrupted key = Some "garbage"
  ∧ _value_from_typestring "garbage" = Raise CorruptDataError
  ∧ run (Cache.get cache key None true) corrupted = Some (Raise CorruptDataError, corrupted)
  ∧ run (Cache.pop cache key None true) corrupted = Some (Raise CorruptDataError, corrupted)
  ∧ run (Cache.contains cache key true) corrupted = Some (Ok true, corrupted).
Proof.
  assert (field cache corrupted key = Some "garbage") as Hfield by by vm_compute.
  assert (_value_from_typestring "garbage" = Raise CorruptDataError) as Hraise
    by by vm_compute.
  split; [apply corrupted_unlocked|]. split; [done|]. split; [done|].
  destruct (undecodable_entry cache key "garbage" CorruptDataError None (VInt 1)
              corrupted (corrupted_unlocked _) Hfield Hraise)
    as (Hget & Hpop & _ & _ & Hcontains & _).
  by split_and!.
Defined.

Lemma update_then_get_witness :
  let items : pydict := {[ key := VInt 1 ]} in
  (Cache.namespace cache ∉ locks (holding (KInt 2) (VStr "two")))
  ∧ items ≠ ∅
  ∧ run (Cache.update cache items true;; Cache.get cache key None true)
        (holding (KInt 2) (VStr "two"))
    = Some (Ok (Some (VInt 1)), updated cache items (holding (KInt 2) (VStr "two")))
  ∧ fst <$> run (Cache.update cache items true;; Cache.get cache (KInt 2) None true)
                (holding (KInt 2) (VStr "two"))
    = Some (Ok (Some (VStr "two"))).
Proof.
  intros items.
  assert (items ≠ ∅) as Hitems by apply insert_non_empty.
  split; [apply holding_unlocked|]. split; [done|]. split.
  - by rewrite (update_then_get cache items key None _ (holding_unlocked _ _ _) Hitems).
  - by rewrite (update_then_get cache items (KInt 2) None _ (holding_unlocked _ _ _) Hitems).
Defined.

Lemma other_keys_untouched_witness :
  (Cache.namespace cache ∉ locks (holding key (VInt 3)))
  ∧ KInt 7 ≠ key
  ∧ ∀ r w', run (Cache.set cache (KInt 7) (VBool true) true) (holding key (VInt 3))
            = Some (r, w') →
      field cache w' key = field cache (holding key (VInt 3)) key.
Proof.
  assert (KInt 7 ≠ key) as Hne by done.
  split; [apply holding_unlocked|]. split; [done|].
  apply (other_keys_untouched cache (KInt 7) key (VBool true) (VInt 1) None
           (holding key (VInt 3)) (holding_unlocked _ _ _) Hne).
Defined.

Lemma length_is_size_of_to_dict_witness :
  let held : pydict := {[ key := VInt 3 ]} in
  (Cache.namespace cache ∉ locks (holding key (VInt 3)))
  ∧ hash (holding key (VInt 3)) (Cache.namespace cache) = Cache._dict_to_typestring held
  ∧ run (Cache.length cache true) (holding key (VInt 3))
    = Some (Ok (Z.of_nat (size held)), holding key (VInt 3)).
Proof.
  intros held.
  assert (hash (holding key (VInt 3)) (Cache.namespace cache)
          = Cache._dict_to_typestring held) as Hheld by by vm_compute.
  split; [apply holding_unlocked|]. split; [done|].
  apply (length_is_size_of_to_dict cache held _ (holding_unlocked _ _ _) Hheld).
Defined.

Lemma increment_then_decrement_witness :
  (Cache.namespace cache ∉ locks (holding key (VInt 10)))
  ∧ field cache (holding key (VInt 10)) key = Some "INT:10"
  ∧ _value_from_typestring "INT:10" = Ok (VInt 10)
  ∧ run (Cache.increment cache key (VInt 4) true;;
         Cache.decrement cache key (VInt 4);;
         Cache.get cache key None true) (holding key (VInt 10))
    = Some (Ok (Some (VInt 10)), written cache key (VInt 10) (holding key (VInt 10))).
Proof.
  assert (field cache (holding key (VInt 10)) key = Some "INT:10") as Hfield
    by by vm_compute.
  assert (_value_from_typestring "INT:10" = Ok (VInt 10)) as Hdecode by by vm_compute.
  split; [apply holding_unlocked|]. split; [done|]. split; [done|].
  apply (increment_then_decrement cache key 4 10 "INT:10" _
           (holding_unlocked _ _ _) Hfield Hdecode).
Defined.

Lemma second_removal_finds_nothing_witness :
  (Cache.namespace cache ∉ locks (holding key (VInt 3)))
  ∧ field cache (holding key (VInt 3)) key = Some "INT:3"
  ∧ _value_from_typestring "INT:3" = Ok (VInt 3)
  ∧ run (a ← Cache.pop cache key None true;
         b ← Cache.pop cache key (Some (VStr "gone")) true;
         mret (a, b)) (holding key (VInt 3))
    = Some (Ok (Some (VInt 3), Some (VStr "gone")), deleted cache key (holding key (VInt 3))).
Proof.
  assert (field cache (holding key (VInt 3)) key = Some "INT:3") as Hfield
    by by vm_compute.
  assert (_value_from_typestring "INT:3" = Ok (VInt 3)) as Hdecode by by vm_compute.
  split; [apply holding_unlocked|]. split; [done|]. split; [done|].
  apply (second_removal_finds_nothing cache key "INT:3" (VInt 3) None
           (Some (VStr "gone")) _ (holding_unlocked _ _ _) Hfield Hdecode).
Defined.

Lemma two_calls_serialise_witness :
  let p1 := Cache.set cache key (VInt 1) true in
  let p2 := Cache.get cache key None true in
  let tasks : list (prog (unit + option RedisValueType)) := [inl <$> p1; inr <$> p2] in
  let c := sched_run interleaved (tasks, holding key (VInt 5)) in
  api_call cache true p1
  ∧ api_call cache true p2
  ∧ (Cache.namespace cache ∉ locks (holding key (VInt 5)))
  ∧ rtc sched_step (tasks, holding key (VInt 5)) c
  ∧ finished c.1
  ∧ ∃ r1 r2 w1, c.1 = [Done (inl <$> r1); Done (inr <$> r2)]
      ∧ ((run p1 (holding key (VInt 5)) = Some (r1, w1) ∧ run p2 w1 = Some (r2, c.2))
         ∨ (run p2 (holding key (VInt 5)) = Some (r2, w1) ∧ run p1 w1 = Some (r1, c.2))).
Proof.
  intros p1 p2 tasks c.
  assert (finished c.1) as Hfin by (vm_compute; repeat constructor; by eexists).
  split; [constructor|]. split; [constructor|]. split; [apply holding_unlocked|].
  split; [apply sched_run_rtc|]. split; [done|].
  destruct (two_calls_serialise cache p1 p2 (holding key (VInt 5)) c
              (call_set cache true key (VInt 1))
              (call_get cache true key None)
              (holding_unlocked _ _ _) (sched_run_rtc _ _)) as [Hserial _].
  by apply Hserial.
Defined.

Lemma concurrent_pops_deliver_once_witness :
  let tasks := [Cache.pop cache key None true;
                Cache.pop cache key (Some (VStr "gone")) true] in
  let c := sched_run interleaved (tasks, holding key (VInt 3)) in
  (Cache.namespace cache ∉ locks (holding key (VInt 3)))
  ∧ field cache (holding key (VInt 3)) key = Some "INT:3"
  ∧ _value_from_typestring "INT:3" = Ok (VInt 3)
  ∧ rtc sched_step (tasks, holding key (VInt 3)) c
  ∧ finished c.1
  ∧ (c.1 = [Done (Ok (Some (VInt 3))); Done (Ok (Some (VStr "gone")))]
     ∨ c.1 = [Done (Ok None); Done (Ok (Some (VInt 3)))])
  ∧ field cache c.2 key = None.
Proof.
  intros tasks c.
  assert (field cache (holding key (VInt 3)) key = Some "INT:3") as Hfield
    by by vm_compute.
  assert (_value_from_typestring "INT:3" = Ok (VInt 3)) as Hdecode by by vm_compute.
  assert (finished c.1) as Hfin by (vm_compute; repeat constructor; by eexists).
  split; [apply holding_unlocked|]. split; [done|]. split; [done|].
  split; [apply sched_run_rtc|]. split; [done|].
  apply (concurrent_pops_deliver_once cache key "INT:3" (VInt 3) None
           (Some (VStr "gone")) (holding key (VInt 3)) c
           (holding_unlocked _ _ _) Hfield Hdecode (sched_run_rtc _ _) Hfin).
Defined.

End more_examples.
